(** * ContentionBenchmark: priority mutexes, the contention harness, the sweep

    A model of [main.cpp].  The four [PriorityMutex] classes are embedded as
    the instruction sequences of their four methods over the members each
    class declares; the two worker loops of [ContentionTest] run them under an
    interleaving semantics, one atomic step per loop test, method call,
    library call or member access, and method return.  The sweep of [main]
    is a fold over the duration table. *)

From Stdlib Require Import ZArith Lia Bool.
From stdpp Require Import base option list gmap strings.

Open Scope Z_scope.

(** ** Members of the strategy classes *)

(** The two callers of a [PriorityMutex]: [lowPriorityThreadFunction] and
    [highPriorityThreadFunction]. *)
Inductive worker := Low | High.

Inductive PriorityMutex :=
| BasicPriorityMutex
| TwoMutexPriorityMutex
| MutexAndAtomicBoolPriorityMutex
| MutexAndTwoBoolPriorityMutex.

(** [std::mutex] members. *)
Inductive mutex_id := mutex_ | dataMutex_ | nextToAccessMutex_.

(** [std::unique_lock<std::mutex>] members, both built as
    [{dataMutex_, defer_lock}]. *)
Inductive unique_lock := lowPriorityLock_ | highPriorityLock_.

(** Boolean members: [atomic<bool> waiting_] and the two plain [bool]s. *)
Inductive flag := waiting_ | dataHeld_ | highPriorityWaiting_.

#[global] Instance worker_eq_dec : EqDecision worker.
Proof. solve_decision. Defined.
#[global] Instance PriorityMutex_eq_dec : EqDecision PriorityMutex.
Proof. solve_decision. Defined.

(** The state of one strategy instance: who has each mutex locked, the
    [owns] bit of each [unique_lock], and the flags. *)
Record memory := Memory {
  mutex_owner : option worker;
  dataMutex_owner : option worker;
  nextToAccessMutex_owner : option worker;
  lowPriorityLock_owns : bool;
  highPriorityLock_owns : bool;
  waiting : bool;
  dataHeld : bool;
  highPriorityWaiting : bool
}.

#[global] Instance memory_eq_dec : EqDecision memory.
Proof. solve_decision. Defined.

(** Every member default-initialised as in the class bodies: mutexes
    unlocked, [defer_lock] locks not owning, flags [false]. *)
Definition fresh : memory :=
  Memory None None None false false false false false.

Definition owner (m : mutex_id) (σ : memory) : option worker :=
  match m with
  | mutex_ => mutex_owner σ
  | dataMutex_ => dataMutex_owner σ
  | nextToAccessMutex_ => nextToAccessMutex_owner σ
  end.

Definition set_owner (m : mutex_id) (o : option worker) (σ : memory) : memory :=
  let 'Memory a b c d e f g h := σ in
  match m with
  | mutex_ => Memory o b c d e f g h
  | dataMutex_ => Memory a o c d e f g h
  | nextToAccessMutex_ => Memory a b o d e f g h
  end.

Definition mutex_of (l : unique_lock) : mutex_id := dataMutex_.

Definition owns_lock (l : unique_lock) (σ : memory) : bool :=
  match l with
  | lowPriorityLock_ => lowPriorityLock_owns σ
  | highPriorityLock_ => highPriorityLock_owns σ
  end.

Definition set_owns (l : unique_lock) (v : bool) (σ : memory) : memory :=
  let 'Memory a b c d e f g h := σ in
  match l with
  | lowPriorityLock_ => Memory a b c v e f g h
  | highPriorityLock_ => Memory a b c d v f g h
  end.

Definition load (x : flag) (σ : memory) : bool :=
  match x with
  | waiting_ => waiting σ
  | dataHeld_ => dataHeld σ
  | highPriorityWaiting_ => highPriorityWaiting σ
  end.

Definition set_flag (x : flag) (v : bool) (σ : memory) : memory :=
  let 'Memory a b c d e f g h := σ in
  match x with
  | waiting_ => Memory a b c d e v g h
  | dataHeld_ => Memory a b c d e f v h
  | highPriorityWaiting_ => Memory a b c d e f g v
  end.

(** ** The four operations of each class *)

(** One statement of a method body. *)
Inductive instr :=
| mutex_lock (m : mutex_id)               (* m.lock()   on a std::mutex *)
| mutex_unlock (m : mutex_id)             (* m.unlock() on a std::mutex *)
| ul_lock (l : unique_lock)               (* l.lock()   on a unique_lock *)
| ul_unlock (l : unique_lock)             (* l.unlock() on a unique_lock *)
| cv_wait (l : unique_lock) (pred : memory → bool)  (* cv_.wait(l, pred) *)
| cv_notify_all                           (* cv_.notify_all() *)
| store (x : flag) (v : bool).            (* x = v *)

Definition lockLowPriority (pm : PriorityMutex) : list instr :=
  match pm with
  | BasicPriorityMutex =>
      [mutex_lock mutex_]
  | TwoMutexPriorityMutex =>
      [mutex_lock nextToAccessMutex_;
       mutex_lock dataMutex_;
       mutex_unlock nextToAccessMutex_]
  | MutexAndAtomicBoolPriorityMutex =>
      [ul_lock lowPriorityLock_;
       cv_wait lowPriorityLock_ (λ σ, negb (load waiting_ σ))]
  | MutexAndTwoBoolPriorityMutex =>
      [ul_lock lowPriorityLock_;
       cv_wait lowPriorityLock_
         (λ σ, negb (load dataHeld_ σ || load highPriorityWaiting_ σ));
       store dataHeld_ true;
       ul_unlock lowPriorityLock_]
  end.

Definition unlockLowPriority (pm : PriorityMutex) : list instr :=
  match pm with
  | BasicPriorityMutex =>
      [mutex_unlock mutex_]
  | TwoMutexPriorityMutex =>
      [mutex_unlock dataMutex_]
  | MutexAndAtomicBoolPriorityMutex =>
      [ul_unlock lowPriorityLock_;
       cv_notify_all]
  | MutexAndTwoBoolPriorityMutex =>
      [ul_lock lowPriorityLock_;
       store dataHeld_ false;
       ul_unlock lowPriorityLock_;
       cv_notify_all]
  end.

Definition lockHighPriority (pm : PriorityMutex) : list instr :=
  match pm with
  | BasicPriorityMutex =>
      [mutex_lock mutex_]
  | TwoMutexPriorityMutex =>
      [mutex_lock nextToAccessMutex_;
       mutex_lock dataMutex_;
       mutex_unlock nextToAccessMutex_]
  | MutexAndAtomicBoolPriorityMutex =>
      [store waiting_ true;
       ul_lock highPriorityLock_;
       store waiting_ false]
  | MutexAndTwoBoolPriorityMutex =>
      [ul_lock highPriorityLock_;
       store highPriorityWaiting_ true;
       cv_wait lowPriorityLock_ (λ σ, negb (load dataHeld_ σ));
       store dataHeld_ true;
       ul_unlock highPriorityLock_]
  end.

Definition unlockHighPriority (pm : PriorityMutex) : list instr :=
  match pm with
  | BasicPriorityMutex =>
      [mutex_unlock mutex_]
  | TwoMutexPriorityMutex =>
      [mutex_unlock dataMutex_]
  | MutexAndAtomicBoolPriorityMutex =>
      [ul_unlock highPriorityLock_;
       cv_notify_all]
  | MutexAndTwoBoolPriorityMutex =>
      [ul_lock highPriorityLock_;
       store dataHeld_ false;
       store highPriorityWaiting_ false;
       ul_unlock highPriorityLock_;
       cv_notify_all]
  end.

(** ** Threads *)

(** Where a worker stands in its loop
    [while (shouldRun_) { lock; work; unlock }]: at the loop test; past a
    test that found [shouldRun_] true, the lock method not called yet (the
    high-priority worker sleeps here); inside the lock call; between the
    return of the lock call and the unlock call; inside the unlock call; or
    past the loop. *)
Inductive phase := Loop | Passed | Locking | Critical | Unlocking | Finished.

(** A thread inside [condition_variable::wait]: running, blocked with the
    mutex released, or unblocked and about to lock the mutex again. *)
Inductive cv_state := Awake | Blocked | Notified.

Record thread := Thread { ph : phase; pc : nat; cv : cv_state }.

#[global] Instance phase_eq_dec : EqDecision phase.
Proof. solve_decision. Defined.
#[global] Instance cv_state_eq_dec : EqDecision cv_state.
Proof. solve_decision. Defined.
#[global] Instance thread_eq_dec : EqDecision thread.
Proof. solve_decision. Defined.

Record state := State {
  mem : memory;
  low : thread;
  high : thread;
  shouldRun_ : bool;
  terminated : bool      (* std::terminate was called *)
}.

#[global] Instance state_eq_dec : EqDecision state.
Proof. solve_decision. Defined.

Definition thread_of (w : worker) (s : state) : thread :=
  match w with Low => low s | High => high s end.

Definition set_thread (w : worker) (th : thread) (s : state) : state :=
  match w with
  | Low => State (mem s) th (high s) (shouldRun_ s) (terminated s)
  | High => State (mem s) (low s) th (shouldRun_ s) (terminated s)
  end.

Definition set_mem (σ : memory) (s : state) : state :=
  State σ (low s) (high s) (shouldRun_ s) (terminated s).

(** An exception leaves a thread function: the process ends. *)
Definition terminate (s : state) : state :=
  State (mem s) (low s) (high s) (shouldRun_ s) true.

(** The phase a call returns into. *)
Definition after (p : phase) : phase :=
  match p with
  | Locking => Critical
  | Unlocking => Loop
  | _ => p
  end.

(** Where a thread stands once the statement at [pc] is done: at the next
    statement, or, past the last one, at the return of the call. *)
Definition continue (th : thread) : thread :=
  Thread (ph th) (S (pc th)) Awake.

Definition set_cv (w : worker) (c : cv_state) (s : state) : state :=
  let th := thread_of w s in
  set_thread w (Thread (ph th) (pc th) c) s.

Definition unblock (th : thread) : thread :=
  match cv th with
  | Blocked => Thread (ph th) (pc th) Notified
  | _ => th
  end.

Definition notify_all (s : state) : state :=
  State (mem s) (unblock (low s)) (unblock (high s)) (shouldRun_ s) (terminated s).

(** What [condition_variable::wait(lock)] does with a [unique_lock] that
    does not own its mutex is outside the standard's contract.  The two
    behaviours of the common libraries are both modelled: the wait works on
    [lock.mutex()]'s native handle and never reads the [owns] bit, or it
    tests the bit first and throws. *)
Inductive cv_impl := NativeHandle | OwnsChecked.

#[global] Instance cv_impl_eq_dec : EqDecision cv_impl.
Proof. solve_decision. Defined.

Definition wait_accepts (impl : cv_impl) (l : unique_lock) (σ : memory) : bool :=
  match impl with
  | NativeHandle => true
  | OwnsChecked => owns_lock l σ
  end.

(** One statement executed by worker [w], who goes on as [k] when the
    statement is done; [None] when the call blocks. *)
Definition exec_instr (impl : cv_impl) (w : worker) (k : thread) (i : instr)
    (s : state) : option state :=
  let σ := mem s in
  match i with
  | mutex_lock m =>
      match owner m σ with
      | None => Some (set_thread w k (set_mem (set_owner m (Some w) σ) s))
      | Some _ => None
      end
  | mutex_unlock m =>
      Some (set_thread w k (set_mem (set_owner m None σ) s))
  | ul_lock l =>
      if owns_lock l σ then Some (terminate s)
      else match owner (mutex_of l) σ with
           | None =>
               Some (set_thread w k (set_mem
                       (set_owns l true (set_owner (mutex_of l) (Some w) σ)) s))
           | Some _ => None
           end
  | ul_unlock l =>
      if owns_lock l σ
      then Some (set_thread w k (set_mem
                   (set_owns l false (set_owner (mutex_of l) None σ)) s))
      else Some (terminate s)
  | cv_wait l pred =>
      match cv (thread_of w s) with
      | Awake =>
          if pred σ then Some (set_thread w k s)
          else if wait_accepts impl l σ
               then Some (set_cv w Blocked
                            (set_mem (set_owner (mutex_of l) None σ) s))
               else Some (terminate s)
      | Blocked => None
      | Notified =>
          match owner (mutex_of l) σ with
          | None =>
              Some (set_cv w Awake
                      (set_mem (set_owner (mutex_of l) (Some w) σ) s))
          | Some _ => None
          end
      end
  | cv_notify_all =>
      Some (set_thread w k (notify_all s))
  | store x v =>
      Some (set_thread w k (set_mem (set_flag x v σ) s))
  end.

(** One step inside a call: the statement at [pc], or, past the last
    statement, the return. *)
Definition exec_body (impl : cv_impl) (w : worker) (body : list instr)
    (s : state) : option state :=
  let th := thread_of w s in
  match body !! pc th with
  | Some i => exec_instr impl w (continue th) i s
  | None => Some (set_thread w (Thread (after (ph th)) 0 Awake) s)
  end.

(** One step of a worker loop [while (shouldRun_) { lock; work; unlock }]:
    the loop test; the call of the lock method, after the sleep of the
    high-priority worker; one statement of a method body, or the return of
    the call; the work and the call of the unlock method.  The timed sleeps
    and the clock readings of the two thread functions change no member of
    the strategy. *)
Definition worker_loop (impl : cv_impl) (w : worker)
    (lock unlock : list instr) (s : state) : option state :=
  match ph (thread_of w s) with
  | Loop =>
      if shouldRun_ s
      then Some (set_thread w (Thread Passed 0 Awake) s)
      else Some (set_thread w (Thread Finished 0 Awake) s)
  | Passed => Some (set_thread w (Thread Locking 0 Awake) s)
  | Locking => exec_body impl w lock s
  | Critical => Some (set_thread w (Thread Unlocking 0 Awake) s)
  | Unlocking => exec_body impl w unlock s
  | Finished => None
  end.

Definition lowPriorityThreadFunction (impl : cv_impl) (pm : PriorityMutex)
    (s : state) : option state :=
  worker_loop impl Low (lockLowPriority pm) (unlockLowPriority pm) s.

Definition highPriorityThreadFunction (impl : cv_impl) (pm : PriorityMutex)
    (s : state) : option state :=
  worker_loop impl High (lockHighPriority pm) (unlockHighPriority pm) s.

(** What the scheduler may pick next: a worker runs one step, a blocked
    waiter wakes spuriously, or the controller of [ContentionTest::run]
    clears [shouldRun_]. *)
Inductive event := Run (w : worker) | SpuriousWakeup (w : worker) | Stop.

Definition step (impl : cv_impl) (pm : PriorityMutex) (e : event) (s : state)
  : option state :=
  if terminated s then None
  else match e with
       | Run Low => lowPriorityThreadFunction impl pm s
       | Run High => highPriorityThreadFunction impl pm s
       | SpuriousWakeup w =>
           match cv (thread_of w s) with
           | Blocked => Some (set_cv w Notified s)
           | _ => None
           end
       | Stop =>
           if shouldRun_ s
           then Some (State (mem s) (low s) (high s) false (terminated s))
           else None
       end.

Definition start : thread := Thread Loop 0 Awake.

(** A run of the harness on an instance whose members are [σ]. *)
Definition launch (σ : memory) : state := State σ start start true false.

Fixpoint exec (impl : cv_impl) (pm : PriorityMutex) (sched : list event)
    (s : state) : option state :=
  match sched with
  | [] => Some s
  | e :: rest =>
      match step impl pm e s with
      | Some s' => exec impl pm rest s'
      | None => None
      end
  end.

Definition run (impl : cv_impl) (pm : PriorityMutex) (sched : list event)
  : option state :=
  exec impl pm sched (launch fresh).

(** ** Exploring the states a run can reach *)

Definition all_events : list event :=
  [Run Low; Run High; SpuriousWakeup Low; SpuriousWakeup High; Stop].

Definition successors (impl : cv_impl) (pm : PriorityMutex) (s : state)
  : list state :=
  omap (λ e, step impl pm e s) all_events.

Fixpoint explore (impl : cv_impl) (pm : PriorityMutex) (fuel : nat)
    (seen todo : list state) : list state :=
  match fuel with
  | O => seen
  | S n =>
      match todo with
      | [] => seen
      | s :: rest =>
          if bool_decide (s ∈ seen) then explore impl pm n seen rest
          else explore impl pm n (s :: seen) (successors impl pm s ++ rest)
      end
  end.

Definition reached (impl : cv_impl) (pm : PriorityMutex) : list state :=
  explore impl pm 4096 [] [launch fresh].

Definition closed (impl : cv_impl) (pm : PriorityMutex) (R : list state) : bool :=
  forallb (λ s, forallb (λ s', bool_decide (s' ∈ R)) (successors impl pm s)) R.

(** A property of states, and a property of steps, checked over every
    explored state. *)
Definition always (impl : cv_impl) (pm : PriorityMutex) (P : state → bool) : bool :=
  forallb P (reached impl pm).

Definition always_step (impl : cv_impl) (pm : PriorityMutex)
    (Q : state → event → state → bool) : bool :=
  forallb (λ s, forallb (λ e, match step impl pm e s with
                              | Some s' => Q s e s'
                              | None => true
                              end) all_events) (reached impl pm).

#[global] Instance event_eq_dec : EqDecision event.
Proof. solve_decision. Defined.

(** ** Vocabulary of the properties *)

(** Worker [w] holds the resource: its lock call has returned and it has not
    called unlock yet. *)
Definition holds (w : worker) (s : state) : Prop :=
  ph (thread_of w s) = Critical.

(** Worker [w] is about to run statement [k] of the call it is in. *)
Definition at_stmt (w : worker) (p : phase) (k : nat) (s : state) : Prop :=
  ph (thread_of w s) = p ∧ pc (thread_of w s) = k.

#[global] Instance holds_dec w s : Decision (holds w s).
Proof. unfold holds. apply _. Defined.
#[global] Instance at_stmt_dec w p k s : Decision (at_stmt w p k s).
Proof. unfold at_stmt. apply _. Defined.

(** The statement worker [w] is about to run. *)
Definition current (pm : PriorityMutex) (w : worker) (s : state) : option instr :=
  let th := thread_of w s in
  match ph th, w with
  | Locking, Low => lockLowPriority pm !! pc th
  | Locking, High => lockHighPriority pm !! pc th
  | Unlocking, Low => unlockLowPriority pm !! pc th
  | Unlocking, High => unlockHighPriority pm !! pc th
  | _, _ => None
  end.

(** The mutex a library call needs locked by its caller: an unlock, and a
    wait when it tests its predicate. *)
Definition needs_mutex (i : instr) (c : cv_state) : option mutex_id :=
  match i with
  | mutex_unlock m => Some m
  | ul_unlock l => Some (mutex_of l)
  | cv_wait l _ => match c with Awake => Some (mutex_of l) | _ => None end
  | _ => None
  end.

Definition in_contract (pm : PriorityMutex) (w : worker) (s : state) : Prop :=
  match current pm w s with
  | Some i =>
      match needs_mutex i (cv (thread_of w s)) with
      | Some m => owner m (mem s) = Some w
      | None => True
      end
  | None => True
  end.

#[global] Instance in_contract_dec pm w s : Decision (in_contract pm w s).
Proof.
  unfold in_contract. destruct (current pm w s) as [i|]; [|apply _].
  destruct (needs_mutex i (cv (thread_of w s))); apply _.
Defined.

(** The state a schedule leads to (the launch state if it cannot run). *)
Definition state_after (impl : cv_impl) (pm : PriorityMutex)
    (sched : list event) : state :=
  default (launch fresh) (run impl pm sched).

(** Schedules used as concrete inputs.  [solo w n] lets [w] take [n] steps. *)
Definition solo (w : worker) (n : nat) : list event := replicate n (Run w).

(** Both workers make one full pass through the Preferenced strategy, the
    controller stops the run, and both leave their loops. *)
Definition one_round_each : list event :=
  solo Low 13 ++ solo High 15 ++ [Stop; Run Low; Run High].


(** *** Flagged strategy *)

(** The high-priority worker is inside [lockHighPriority] between its two
    stores to [waiting_]: about to lock, or having locked and about to
    clear the flag. *)
Definition acquiring (s : state) : Prop :=
  at_stmt High Locking 1 s ∨ at_stmt High Locking 2 s.

#[global] Instance acquiring_dec s : Decision (acquiring s).
Proof. unfold acquiring. apply _. Defined.

(** *** Preferenced strategy *)

(** Worker [w] is inside a call of the strategy or in its critical
    region. *)
Definition engaged (w : worker) (s : state) : Prop :=
  ph (thread_of w s) = Locking ∨ holds w s ∨ ph (thread_of w s) = Unlocking.

#[global] Instance engaged_dec w s : Decision (engaged w s).
Proof. unfold engaged. apply _. Defined.

(** What a step of [lockHighPriority] does. *)
Definition lockHigh_contract (impl : cv_impl) (s : state) (e : event)
    (s' : state) : Prop :=
  (* pending is true from the wait on *)
  (ph (high s) = Locking → (2 ≤ pc (high s))%nat →
   highPriorityWaiting (mem s) = true) ∧
  (* the wait is left exactly when held is seen false *)
  (e = Run High → at_stmt High Locking 2 s →
   (at_stmt High Locking 3 s' ↔ cv (high s) = Awake ∧ dataHeld (mem s) = false)) ∧
  (* when held is seen true the caller blocks with the internal mutex
     released; a library that tests the lock it is handed throws instead *)
  (e = Run High → at_stmt High Locking 2 s → cv (high s) = Awake →
   dataHeld (mem s) = true →
   match impl with
   | NativeHandle => cv (high s') = Blocked ∧ dataMutex_owner (mem s') = None
   | OwnsChecked => terminated s' = true
   end) ∧
  (* then held is set *)
  (e = Run High → at_stmt High Locking 3 s → dataHeld (mem s') = true) ∧
  (* and the call returns, past its five statements, with both flags set *)
  (e = Run High → ph (high s) = Locking → holds High s' →
   pc (high s) = 5%nat
   ∧ dataHeld (mem s') = true ∧ highPriorityWaiting (mem s') = true).

(** What a step of [unlockHighPriority] does. *)
Definition unlockHigh_contract (s : state) (e : event) (s' : state) : Prop :=
  (e = Run High → at_stmt High Unlocking 1 s → dataHeld (mem s') = false) ∧
  (e = Run High → at_stmt High Unlocking 2 s →
   dataHeld (mem s') = false ∧ highPriorityWaiting (mem s') = false) ∧
  (* the mutex is released with both flags cleared *)
  (e = Run High → at_stmt High Unlocking 3 s →
   dataHeld (mem s') = false ∧ highPriorityWaiting (mem s') = false
   ∧ dataMutex_owner (mem s') = None) ∧
  (* the last statement wakes every waiter *)
  (e = Run High → at_stmt High Unlocking 4 s →
   cv (low s') ≠ Blocked ∧ cv (high s') ≠ Blocked) ∧
  (* the call returns, past its five statements, with pending cleared, no
     waiter blocked, and held cleared unless the low-priority worker has
     taken the resource since *)
  (e = Run High → ph (high s) = Unlocking → ph (high s') = Loop →
   pc (high s) = 5%nat
   ∧ highPriorityWaiting (mem s') = false
   ∧ cv (low s') ≠ Blocked
   ∧ (dataHeld (mem s') = true → engaged Low s')).

(** What a step of [lockLowPriority] does. *)
Definition lockLow_contract (s : state) (e : event) (s' : state) : Prop :=
  (* the wait is left exactly when held and pending are both seen false *)
  (e = Run Low → at_stmt Low Locking 1 s →
   (at_stmt Low Locking 2 s' ↔
    cv (low s) = Awake ∧ dataHeld (mem s) = false
    ∧ highPriorityWaiting (mem s) = false)) ∧
  (* otherwise the caller blocks with the internal mutex released *)
  (e = Run Low → at_stmt Low Locking 1 s → cv (low s) = Awake →
   dataHeld (mem s) = true ∨ highPriorityWaiting (mem s) = true →
   cv (low s') = Blocked ∧ dataMutex_owner (mem s') = None) ∧
  (e = Run Low → at_stmt Low Locking 2 s → dataHeld (mem s') = true) ∧
  (* the call returns, past its four statements, with held set *)
  (e = Run Low → ph (low s) = Locking → holds Low s' →
   pc (low s) = 4%nat ∧ dataHeld (mem s') = true).

(** What a step of [unlockLowPriority] does. *)
Definition unlockLow_contract (s : state) (e : event) (s' : state) : Prop :=
  (e = Run Low → at_stmt Low Unlocking 1 s → dataHeld (mem s') = false) ∧
  (* pending is left as it is *)
  (e = Run Low → ph (low s) = Unlocking →
   highPriorityWaiting (mem s') = highPriorityWaiting (mem s)) ∧
  (* the last statement wakes every waiter *)
  (e = Run Low → at_stmt Low Unlocking 3 s →
   cv (low s') ≠ Blocked ∧ cv (high s') ≠ Blocked) ∧
  (* the call returns, past its four statements, with no waiter blocked and
     held cleared unless the high-priority worker has taken the resource
     since *)
  (e = Run Low → ph (low s) = Unlocking → ph (low s') = Loop →
   pc (low s) = 4%nat
   ∧ cv (high s') ≠ Blocked
   ∧ (dataHeld (mem s') = true → engaged High s')).

#[global] Instance lockHigh_contract_dec impl s e s' :
  Decision (lockHigh_contract impl s e s').
Proof. unfold lockHigh_contract. destruct impl; apply _. Defined.
#[global] Instance unlockHigh_contract_dec s e s' : Decision (unlockHigh_contract s e s').
Proof. unfold unlockHigh_contract. apply _. Defined.
#[global] Instance lockLow_contract_dec s e s' : Decision (lockLow_contract s e s').
Proof. unfold lockLow_contract. apply _. Defined.
#[global] Instance unlockLow_contract_dec s e s' : Decision (unlockLow_contract s e s').
Proof. unfold unlockLow_contract. apply _. Defined.

(** Worker [w] has stored [true] to [dataHeld_] in its lock call and has not
    yet stored [false] in its unlock call. *)
Definition marked (w : worker) (s : state) : Prop :=
  let th := thread_of w s in
  match ph th with
  | Locking => (match w with Low => 3 | High => 4 end ≤ pc th)%nat
  | Critical => True
  | Unlocking => (pc th ≤ 1)%nat
  | _ => False
  end.

(** Worker [w] is between the return of its lock call and the first
    statement of its unlock call. *)
Definition between (w : worker) (s : state) : Prop :=
  holds w s ∨ at_stmt w Unlocking 0 s.

(** Worker [w] is between the return of its lock call and the return of its
    unlock call. *)
Definition lock_to_unlock (w : worker) (s : state) : Prop :=
  holds w s ∨ ph (thread_of w s) = Unlocking.

#[global] Instance marked_dec w s : Decision (marked w s).
Proof. unfold marked. destruct (ph (thread_of w s)); apply _. Defined.
#[global] Instance between_dec w s : Decision (between w s).
Proof. unfold between. apply _. Defined.
#[global] Instance lock_to_unlock_dec w s : Decision (lock_to_unlock w s).
Proof. unfold lock_to_unlock. apply _. Defined.

(** The invariant of [dataHeld_]: it is true exactly when one worker, and
    never both, is between its two stores. *)
Definition dataHeld_invariant (s : state) : Prop :=
  (dataHeld (mem s) = true ↔ marked Low s ∨ marked High s) ∧
  ¬ (marked Low s ∧ marked High s).

(** Who writes [dataHeld_]: only the store of a lock call made with the
    internal mutex locked by the caller sets it, only the store of an unlock
    call clears it. *)
Definition dataHeld_writers (s : state) (e : event) (s' : state) : Prop :=
  (dataHeld (mem s) = false → dataHeld (mem s') = true →
   (e = Run Low ∧ at_stmt Low Locking 2 s ∧ dataMutex_owner (mem s) = Some Low)
   ∨ (e = Run High ∧ at_stmt High Locking 3 s ∧ dataMutex_owner (mem s) = Some High)) ∧
  (dataHeld (mem s) = true → dataHeld (mem s') = false →
   (e = Run Low ∧ at_stmt Low Unlocking 1 s)
   ∨ (e = Run High ∧ at_stmt High Unlocking 1 s)).

#[global] Instance dataHeld_invariant_dec s : Decision (dataHeld_invariant s).
Proof. unfold dataHeld_invariant. apply _. Defined.
#[global] Instance dataHeld_writers_dec s e s' : Decision (dataHeld_writers s e s').
Proof. unfold dataHeld_writers. apply _. Defined.

(** ** The harness *)

Record ContentionTest := {
  priorityMutex_ : PriorityMutex;
  lowPrioWorkTime_ : Z;        (* chrono::microseconds *)
  highPrioWorkTime_ : Z;
  highPrioSleepTime_ : Z
}.

(** How a call ends. *)
Inductive outcome (A : Type) :=
| Returned (a : A)
| Thrown (what : string).
Arguments Returned {A} a.
Arguments Thrown {A} what.

(** The constructor: a member initialiser list and an empty body. *)
Definition ContentionTest_new (priorityMutex : PriorityMutex)
    (lowPrioWorkTime highPrioWorkTime highPrioSleepTime : Z)
  : outcome ContentionTest :=
  Returned {| priorityMutex_ := priorityMutex;
              lowPrioWorkTime_ := lowPrioWorkTime;
              highPrioWorkTime_ := highPrioWorkTime;
              highPrioSleepTime_ := highPrioSleepTime |}.

(** Both threads have been joined. *)
Definition joined (s : state) : Prop :=
  ph (low s) = Finished ∧ ph (high s) = Finished.

#[global] Instance joined_dec s : Decision (joined s).
Proof. unfold joined. apply _. Defined.

(** [ContentionTest::run] under schedule [sched] on an instance whose
    members are [σ]: the members it leaves once both threads are joined.
    The durations only set how long the sleeps last. *)
Definition ContentionTest_run (impl : cv_impl) (t : ContentionTest)
    (sched : list event) (σ : memory) : option memory :=
  match exec impl (priorityMutex_ t) sched (launch σ) with
  | Some s => if decide (joined s) then Some (mem s) else None
  | None => None
  end.

(** The runs [main] makes on one strategy instance, one per parameter
    combination, each on the members the previous run left: the members at
    the start of each run and after the last. *)
Fixpoint reuse (impl : cv_impl) (pm : PriorityMutex) (σ : memory)
    (runs : list (Z * Z * Z * list event)) : option (list memory) :=
  match runs with
  | [] => Some [σ]
  | (lo, hi, sl, sched) :: rest =>
      match ContentionTest_new pm lo hi sl with
      | Returned t =>
          match ContentionTest_run impl t sched σ with
          | Some σ' => (σ ::.) <$> reuse impl pm σ' rest
          | None => None
          end
      | Thrown _ => None
      end
  end.

(** ** Who holds the resource *)

(** What an observer of the resource sees of a step: a lock call returning
    or an unlock call being made. *)
Inductive obs := Acquired (w : worker) | Released (w : worker).

#[global] Instance obs_eq_dec : EqDecision obs.
Proof. solve_decision. Defined.

Definition observe_worker (w : worker) (s s' : state) : list obs :=
  match ph (thread_of w s), ph (thread_of w s') with
  | Locking, Critical => [Acquired w]
  | Critical, Unlocking => [Released w]
  | _, _ => []
  end.

Definition observe (s s' : state) : list obs :=
  observe_worker Low s s' ++ observe_worker High s s'.

(** The acquisitions and releases along a schedule, and the state reached. *)
Fixpoint holder_trace (impl : cv_impl) (pm : PriorityMutex)
    (sched : list event) (s : state) : option (list obs * state) :=
  match sched with
  | [] => Some ([], s)
  | e :: rest =>
      match step impl pm e s with
      | Some s' =>
          match holder_trace impl pm rest s' with
          | Some (tr, s'') => Some (observe s s' ++ tr, s'')
          | None => None
          end
      | None => None
      end
  end.

(** Who is between the return of its lock call and its unlock call. *)
Definition holder (s : state) : option worker :=
  if decide (holds Low s) then Some Low
  else if decide (holds High s) then Some High
  else None.

(** Reading a sequence of acquisitions and releases from a holder on: an
    acquisition needs the resource free, a release needs it held by the
    releasing worker.  [None] when the sequence breaks this. *)
Fixpoint track (cur : option worker) (tr : list obs) : option (option worker) :=
  match tr with
  | [] => Some cur
  | Acquired w :: rest =>
      match cur with
      | None => track (Some w) rest
      | Some _ => None
      end
  | Released w :: rest =>
      if decide (cur = Some w) then track None rest else None
  end.

(** The intervals in which the workers hold the resource do not overlap. *)
Definition exclusive (tr : list obs) : Prop := is_Some (track None tr).

(** A state of the Gated strategy read as a state of the Plain one: a
    worker at one of the three statements of a Gated lock call is a worker
    about to lock [mutex_], which it has when the Gated call is about to
    return. *)
Definition plain_thread (th : thread) : thread :=
  match ph th with
  | Locking => Thread Locking (if decide (pc th ≤ 2)%nat then 0 else 1) Awake
  | _ => th
  end.

Definition plain_of (g : state) : state :=
  let o := match dataMutex_owner (mem g) with
           | Some w => if decide (ph (thread_of w g) = Locking
                                  ∧ (pc (thread_of w g) ≤ 2)%nat)
                       then None else Some w
           | None => None
           end in
  State (set_owner mutex_ o fresh) (plain_thread (low g)) (plain_thread (high g))
        (shouldRun_ g) (terminated g).

(** The Plain steps that answer one Gated step: none while the gate and the
    data mutex are being taken, one lock when the gate is released. *)
Definition plain_events (e : event) (g : state) : list event :=
  match e with
  | Run w =>
      match ph (thread_of w g) with
      | Locking => if decide (pc (thread_of w g) ≤ 1)%nat then [] else [e]
      | _ => [e]
      end
  | _ => [e]
  end.

(** A state of the Plain strategy read as a state of the Gated one, the
    gate free. *)
Definition gated_thread (th : thread) : thread :=
  match ph th with
  | Locking => Thread Locking (if decide (pc th = 0)%nat then 0 else 3) Awake
  | _ => th
  end.

Definition gated_of (p : state) : state :=
  State (set_owner dataMutex_ (mutex_owner (mem p)) fresh)
        (gated_thread (low p)) (gated_thread (high p))
        (shouldRun_ p) (terminated p).

(** The Gated steps that answer one Plain step: the three statements of the
    lock call for the one lock. *)
Definition gated_events (e : event) (p : state) : list event :=
  match e with
  | Run w =>
      match ph (thread_of w p) with
      | Locking => if decide (pc (thread_of w p) = 0)%nat then [e; e; e] else [e]
      | _ => [e]
      end
  | _ => [e]
  end.

(** A statement of the Plain strategy made to work on [dataMutex_]. *)
Definition on_dataMutex (i : instr) : instr :=
  match i with
  | mutex_lock mutex_ => mutex_lock dataMutex_
  | mutex_unlock mutex_ => mutex_unlock dataMutex_
  | _ => i
  end.

(** A lock method wrapped in the gate. *)
Definition behind_gate (body : list instr) : list instr :=
  mutex_lock nextToAccessMutex_ :: (on_dataMutex <$> body)
  ++ [mutex_unlock nextToAccessMutex_].

(** Exchanging the roles of the two workers. *)
Definition swap_worker (w : worker) : worker :=
  match w with Low => High | High => Low end.

Definition swap_event (e : event) : event :=
  match e with
  | Run w => Run (swap_worker w)
  | SpuriousWakeup w => SpuriousWakeup (swap_worker w)
  | Stop => Stop
  end.

Definition swap_obs (o : obs) : obs :=
  match o with
  | Acquired w => Acquired (swap_worker w)
  | Released w => Released (swap_worker w)
  end.

Definition swap_memory (σ : memory) : memory :=
  let 'Memory a b c d e f g h := σ in
  Memory (swap_worker <$> a) (swap_worker <$> b) (swap_worker <$> c) e d f g h.

Definition swap_state (s : state) : state :=
  State (swap_memory (mem s)) (high s) (low s) (shouldRun_ s) (terminated s).

(** What a run shows with the roles exchanged. *)
Definition swap_view (v : list obs * state) : list obs * state :=
  (swap_obs <$> v.1, swap_state v.2).

(** A strategy treats the two workers alike: exchanging their roles in a
    state exchanges them in every step from it, whether the step is taken
    or blocks, and in what the step lets an observer see. *)
Definition symmetric_step (impl : cv_impl) (pm : PriorityMutex) (e : event)
    (s : state) : Prop :=
  step impl pm (swap_event e) (swap_state s) = swap_state <$> step impl pm e s
  ∧ ∀ s', step impl pm e s = Some s' →
          observe (swap_state s) (swap_state s') = swap_obs <$> observe s s'.

#[global] Instance symmetric_step_dec impl pm e s :
  Decision (symmetric_step impl pm e s).
Proof.
  unfold symmetric_step. destruct (step impl pm e s) as [s'|].
  - destruct (decide (step impl pm (swap_event e) (swap_state s)
                      = swap_state <$> Some s')) as [H1|H1];
      [|right; tauto].
    destruct (decide (observe (swap_state s) (swap_state s')
                      = swap_obs <$> observe s s')) as [H2|H2].
    + left. split; [exact H1|]. by intros ? [= <-].
    + right. intros [_ H]. by apply H2, H.
  - destruct (decide (step impl pm (swap_event e) (swap_state s)
                      = swap_state <$> None)) as [H1|H1];
      [left; split; [exact H1 | by intros ?] | right; tauto].
Defined.

Definition symmetric (impl : cv_impl) (pm : PriorityMutex) : bool :=
  forallb (λ s, forallb (λ e, bool_decide (symmetric_step impl pm e s)) all_events)
          (reached impl pm).

(** The steps by which a worker brings about one observation, from the top
    of its loop to the return of its lock call, and from there through its
    unlock call back to the top of the loop. *)
Definition steps_for (pm : PriorityMutex) (o : obs) : list event :=
  match o with
  | Acquired Low => solo Low (3 + length (lockLowPriority pm))
  | Acquired High => solo High (3 + length (lockHighPriority pm))
  | Released Low => solo Low (2 + length (unlockLowPriority pm))
  | Released High => solo High (2 + length (unlockHighPriority pm))
  end.

(** The state in which [cur] holds the resource and the other worker, or
    both, are at the top of their loops. *)
Definition held_by (impl : cv_impl) (pm : PriorityMutex) (cur : option worker)
  : state :=
  match cur with
  | None => launch fresh
  | Some w => state_after impl pm (steps_for pm (Acquired w))
  end.

(** One step of strategy [A] from [s] is answered from [f s] by the steps
    [ev e s] of strategy [B], with the same observations up to [h]. *)
Definition answers (impl : cv_impl) (B : PriorityMutex) (f : state → state)
    (ev : event → state → list event) (h : obs → obs)
    (s : state) (e : event) (s' : state) : Prop :=
  holder_trace impl B (ev e s) (f s) = Some (h <$> observe s s', f s').

#[global] Instance answers_dec impl B f ev h s e s' :
  Decision (answers impl B f ev h s e s').
Proof. unfold answers. apply _. Defined.

(** The holder traces of a strategy: what an observer can see of its runs. *)
Definition holder_traces (impl : cv_impl) (pm : PriorityMutex)
    (tr : list obs) : Prop :=
  ∃ sched s, holder_trace impl pm sched (launch fresh) = Some (tr, s).

(** ** The sweep of [main] *)

Definition priorityMutexes : list (PriorityMutex * string) :=
  [(BasicPriorityMutex, "BasicPriorityMutex"%string);
   (TwoMutexPriorityMutex, "TwoMutexPriorityMutex"%string);
   (MutexAndAtomicBoolPriorityMutex, "MutexAndAtomicBoolPriorityMutex"%string);
   (MutexAndTwoBoolPriorityMutex, "MutexAndTwoBoolPriorityMutex"%string)].

(** The durations, in microseconds. *)
Definition microseconds : list Z :=
  [1; 10; 100; 1000; 10000; 100000; 1000000].

(** The pair [run] returns holds two [double]s, each converted from an
    [int64_t] count of nanoseconds.  A [double] is modelled by its exact
    value, so these are integers, and [numeric_limits<double>::max()] is
    one too. *)
Definition DBL_MAX : Z := (2 ^ 53 - 1) * 2 ^ 971.

(** What [measure] stands for: the pair [test.run()] returns. *)
Definition measurement := ContentionTest → Z * Z.

(** The harness the innermost loop builds. *)
Definition test_of (pm : PriorityMutex) (shape : Z * Z * Z) : ContentionTest :=
  let '(lo, hi, sl) := shape in
  {| priorityMutex_ := pm; lowPrioWorkTime_ := lo;
     highPrioWorkTime_ := hi; highPrioSleepTime_ := sl |}.

(** The running best of one parameter combination. *)
Record best := Best {
  bestLowName : string;
  bestHighName : string;
  bestLow : Z;
  bestHigh : Z
}.

Definition no_best : best := Best EmptyString EmptyString 0 DBL_MAX.

(** The two comparisons at the end of the innermost loop body. *)
Definition compare_result (result : Z * Z) (name : string) (b : best) : best :=
  let '(lowPriorityWorkTime, highPriorityLatencyTime) := result in
  let b1 := if lowPriorityWorkTime >? bestLow b
            then Best name (bestHighName b) lowPriorityWorkTime (bestHigh b)
            else b in
  if highPriorityLatencyTime <? bestHigh b1
  then Best (bestLowName b1) name (bestLow b1) highPriorityLatencyTime
  else b1.

(** The loop over the strategies for one parameter combination. *)
Definition contest (measure : measurement) (shape : Z * Z * Z) : best :=
  foldl (λ b '(pm, name), compare_result (measure (test_of pm shape)) name b)
        no_best priorityMutexes.

(** [winnerCount[name] += 1] on a [map<string, int>]; no count of the
    sweep leaves the range of [int]. *)
Definition bump (name : string) (m : gmap string Z) : gmap string Z :=
  <[name := default 0 (m !! name) + 1]> m.

(** The two tallies, and the harness runs made so far. *)
Record tally := Tally {
  winnerCountForLow : gmap string Z;
  winnerCountForHigh : gmap string Z;
  runs_made : list ContentionTest
}.

(** The body of the loop over [highPrioSleepTime]. *)
Definition combination (measure : measurement) (shape : Z * Z * Z) (t : tally)
  : tally :=
  let b := contest measure shape in
  Tally (bump (bestLowName b) (winnerCountForLow t))
        (bump (bestHighName b) (winnerCountForHigh t))
        (runs_made t ++ ((λ '(pm, _), test_of pm shape) <$> priorityMutexes)).

(** The three nested loops of [main]; the two maps are what it prints. *)
Definition main (measure : measurement) : tally :=
  foldl (λ t lowPrioWorkTime,
    foldl (λ t highPrioWorkTime,
      foldl (λ t highPrioSleepTime,
        combination measure (lowPrioWorkTime, highPrioWorkTime, highPrioSleepTime) t)
        t microseconds)
      t microseconds)
    (Tally ∅ ∅ []) microseconds.

(** *** Vocabulary of the sweep properties *)

(** The parameter combinations, in the order of the loops. *)
Definition shapes : list (Z * Z * Z) :=
  lo ← microseconds; hi ← microseconds; sl ← microseconds; [(lo, hi, sl)].

Definition low_time (measure : measurement) (shape : Z * Z * Z)
    (pm : PriorityMutex) : Z :=
  (measure (test_of pm shape)).1.

Definition high_latency (measure : measurement) (shape : Z * Z * Z)
    (pm : PriorityMutex) : Z :=
  (measure (test_of pm shape)).2.

Definition low_winner (measure : measurement) (shape : Z * Z * Z) : string :=
  bestLowName (contest measure shape).

Definition high_winner (measure : measurement) (shape : Z * Z * Z) : string :=
  bestHighName (contest measure shape).

(** In how many combinations [name] is the winner. *)
Definition wins (winner : Z * Z * Z → string) (name : string) : Z :=
  Z.of_nat (length (filter (λ shape, winner shape = name) shapes)).

(** The entry of a tally, [0] for a name never tallied. *)
Definition count (m : gmap string Z) (name : string) : Z :=
  default 0 (m !! name).

(** Measurements used as concrete inputs: nothing measured, and a harness
    whose numbers grow with the durations and the strategy. *)
Definition measured_nothing : measurement := λ _, (0, 0).

Definition rank (pm : PriorityMutex) : Z :=
  match pm with
  | BasicPriorityMutex => 1
  | TwoMutexPriorityMutex => 1
  | MutexAndAtomicBoolPriorityMutex => 2
  | MutexAndTwoBoolPriorityMutex => 3
  end.

(** A duration brought into the range of the table. *)
Definition clamp (d : Z) : Z := Z.max 0 (Z.min d 1000000).

Definition measured_sample : measurement :=
  λ t, (clamp (lowPrioWorkTime_ t) * 1000 * (4 - rank (priorityMutex_ t)),
        clamp (highPrioSleepTime_ t) * 1000 * (4 - rank (priorityMutex_ t))).

(** A running maximum with its label, as each of the two comparisons keeps
    one: an entry replaces the best so far only when strictly greater. *)
Definition scan {A : Type} (val : A → Z) (label : A → string)
    (l : list A) (b : Z * string) : Z * string :=
  foldl (λ acc a, if val a >? acc.1 then (val a, label a) else acc) b l.

(** The loop over the strategies, from any running best. *)
Definition contest_from (vals : PriorityMutex → Z * Z)
    (l : list (PriorityMutex * string)) (b : best) : best :=
  foldl (λ b '(pm, name), compare_result (vals pm) name b) b l.

(** Both numbers of a measurement come from an [int64_t]. *)
Definition from_int64 (v : Z) : Prop := - 2 ^ 63 ≤ v ≤ 2 ^ 63.

Definition well_formed (measure : measurement) : Prop :=
  ∀ t, from_int64 (measure t).1 ∧ from_int64 (measure t).2.

#[global] Instance ContentionTest_eq_dec : EqDecision ContentionTest.
Proof. solve_decision. Defined.

(** ** Further vocabulary: the library calls *)

(** The worker each [unique_lock] member is locked and unlocked by. *)
Definition user_of (l : unique_lock) : worker :=
  match l with
  | lowPriorityLock_ => Low
  | highPriorityLock_ => High
  end.

(** A call of [lock()] on a [unique_lock] finds it not owning, a call of
    [unlock()] finds it owning: neither throws. *)
Definition lock_calls_legal (pm : PriorityMutex) (w : worker) (s : state) : Prop :=
  match current pm w s with
  | Some (ul_lock l) => owns_lock l (mem s) = false
  | Some (ul_unlock l) => owns_lock l (mem s) = true
  | _ => True
  end.

#[global] Instance lock_calls_legal_dec pm w s : Decision (lock_calls_legal pm w s).
Proof.
  unfold lock_calls_legal. destruct (current pm w s) as [[]|]; apply _.
Defined.

(** The [owns] bit of [l] is set exactly while its worker has the mutex
    locked or is inside a wait it entered with it. *)
Definition owns_bit_right (l : unique_lock) (s : state) : Prop :=
  owns_lock l (mem s) = true ↔
  owner (mutex_of l) (mem s) = Some (user_of l) ∨ cv (thread_of (user_of l) s) ≠ Awake.

#[global] Instance owns_bit_right_dec l s : Decision (owns_bit_right l s).
Proof. unfold owns_bit_right. apply _. Defined.

(** ** Further vocabulary: where the mutexes are held *)

(** The mutex that guards the data: [mutex_] in the Plain strategy,
    [dataMutex_] in the others. *)
Definition data_lock (pm : PriorityMutex) : mutex_id :=
  match pm with
  | BasicPriorityMutex => mutex_
  | _ => dataMutex_
  end.

(** The stretch of its loop on which worker [w] has the data mutex locked:
    in the first three strategies from the statement that locks it, through
    the return of the lock call and the critical region, to the statement
    of the unlock call that unlocks it; in the Preferenced strategy from
    the lock to the unlock inside each of the two calls, but for the time
    blocked in a wait. *)
Definition locked_span (pm : PriorityMutex) (w : worker) (s : state) : Prop :=
  let th := thread_of w s in
  match pm with
  | BasicPriorityMutex => at_stmt w Locking 1 s ∨ between w s
  | TwoMutexPriorityMutex =>
      (ph th = Locking ∧ (2 ≤ pc th)%nat) ∨ between w s
  | MutexAndAtomicBoolPriorityMutex =>
      match w with
      | Low => (ph th = Locking ∧ (1 ≤ pc th)%nat ∧ cv th = Awake)
               ∨ between Low s
      | High => (ph th = Locking ∧ (2 ≤ pc th)%nat) ∨ between High s
      end
  | MutexAndTwoBoolPriorityMutex =>
      (ph th = Locking ∧ (1 ≤ pc th)%nat
       ∧ (pc th ≤ match w with Low => 3 | High => 4 end)%nat ∧ cv th = Awake)
      ∨ (ph th = Unlocking ∧ (1 ≤ pc th)%nat
         ∧ (pc th ≤ match w with Low => 2 | High => 3 end)%nat)
  end.

#[global] Instance locked_span_dec pm w s : Decision (locked_span pm w s).
Proof. unfold locked_span. destruct pm, w; apply _. Defined.

(** The stretch on which worker [w] has the gate of the Gated strategy. *)
Definition gate_span (pm : PriorityMutex) (w : worker) (s : state) : Prop :=
  pm = TwoMutexPriorityMutex ∧ (at_stmt w Locking 1 s ∨ at_stmt w Locking 2 s).

#[global] Instance gate_span_dec pm w s : Decision (gate_span pm w s).
Proof. unfold gate_span. apply _. Defined.

(** The stretch of the high-priority loop on which [highPriorityWaiting_]
    is set: from the store in the lock call to the store in the unlock
    call. *)
Definition pending_span (s : state) : Prop :=
  (ph (high s) = Locking ∧ (2 ≤ pc (high s))%nat)
  ∨ holds High s
  ∨ (ph (high s) = Unlocking ∧ (pc (high s) ≤ 2)%nat).

#[global] Instance pending_span_dec s : Decision (pending_span s).
Proof. unfold pending_span. apply _. Defined.

(** The flag by which a strategy announces a high-priority request. *)
Definition priority_flag (pm : PriorityMutex) (σ : memory) : bool :=
  match pm with
  | MutexAndAtomicBoolPriorityMutex => waiting σ
  | MutexAndTwoBoolPriorityMutex => highPriorityWaiting σ
  | _ => false
  end.

(** ** Further vocabulary: progress of a run *)

(** Worker [w] is inside an iteration of its loop, whose unlock call ends
    with [notify_all]. *)
Definition will_notify (w : worker) (s : state) : Prop :=
  ph (thread_of w s) = Locking ∨ ph (thread_of w s) = Critical
  ∨ ph (thread_of w s) = Unlocking.

#[global] Instance will_notify_dec w s : Decision (will_notify w s).
Proof. unfold will_notify. apply _. Defined.

(** The scheduler choices that owe nothing to a spurious wake-up. *)
Definition fair_events : list event := [Run Low; Run High; Stop].

Definition spurious (e : event) : bool :=
  match e with
  | SpuriousWakeup _ => true
  | _ => false
  end.

(** A breadth-first search, through [fair_events] only, for a schedule that
    takes [s] to the join of both threads. *)
Fixpoint search (impl : cv_impl) (pm : PriorityMutex) (fuel : nat)
    (seen : list state) (todo : list (state * list event))
  : option (list event) :=
  match fuel with
  | O => None
  | S n =>
      match todo with
      | [] => None
      | (s, path) :: rest =>
          if decide (joined s) then Some (reverse path)
          else if bool_decide (s ∈ seen) then search impl pm n seen rest
          else search impl pm n (s :: seen)
                 (rest ++ omap (λ e, (λ s', (s', e :: path)) <$> step impl pm e s)
                               fair_events)
      end
  end.

(** [plan] takes [s] to the join of both threads, no waiter waking
    spuriously on the way. *)
Definition finishes (impl : cv_impl) (pm : PriorityMutex) (s : state)
    (plan : list event) : Prop :=
  forallb (λ e, negb (spurious e)) plan = true ∧
  ∃ s', exec impl pm plan s = Some s' ∧ joined s'.

(** The search finds such a plan from [s]. *)
Definition completes (impl : cv_impl) (pm : PriorityMutex) (s : state) : bool :=
  match search impl pm 4096 [] [(s, [])] with
  | Some plan =>
      forallb (λ e, negb (spurious e)) plan
      && match exec impl pm plan s with
         | Some s' => bool_decide (joined s')
         | None => false
         end
  | None => false
  end.

(** How many lock calls of [w] can still return once [shouldRun_] is
    false: that of the iteration it is in, if its loop test has passed and
    its lock call has not returned yet. *)
Definition budget (w : worker) (s : state) : nat :=
  match ph (thread_of w s) with
  | Passed | Locking => 1
  | _ => 0
  end.

(** The lock returns of [w] in a sequence of observations. *)
Definition acquisitions (w : worker) (tr : list obs) : nat :=
  length (filter (λ o, o = Acquired w) tr).

(** A step taken with [shouldRun_] false leaves it false and spends the
    budget of [w] on each of its lock returns. *)
Definition drains (w : worker) (s : state) (s' : state) : Prop :=
  shouldRun_ s = false →
  shouldRun_ s' = false
  ∧ (acquisitions w (observe s s') + budget w s' ≤ budget w s)%nat.

#[global] Instance drains_dec w s s' : Decision (drains w s s').
Proof. unfold drains. apply _. Defined.

(** ** Further vocabulary: the tallies *)

(** The names a win can be tallied under: the empty name a best starts
    with, and the names of the strategies. *)
Definition tally_names : list string := EmptyString :: priorityMutexes.*2.

(** The counts of a tally under these names, summed. *)
Definition total (m : gmap string Z) : Z :=
  foldr (λ name acc, count m name + acc) 0 tally_names.

(** Measurements used as a concrete input: the work times of
    [measured_sample] with latencies that favour the Flagged strategy. *)
Definition measured_other : measurement :=
  λ t, ((measured_sample t).1,
        match priorityMutex_ t with
        | MutexAndAtomicBoolPriorityMutex => 5
        | _ => 7
        end).

(** A wait is handed a lock that owns the mutex. *)
Definition wait_lock_owned (pm : PriorityMutex) (w : worker) (s : state) : Prop :=
  match current pm w s with
  | Some (cv_wait l _) =>
      cv (thread_of w s) = Awake → owns_lock l (mem s) = true
  | _ => True
  end.

#[global] Instance wait_lock_owned_dec pm w s : Decision (wait_lock_owned pm w s).
Proof.
  unfold wait_lock_owned. destruct (current pm w s) as [[]|]; apply _.
Defined.

(** The high-priority worker is inside its lock call, past the store that
    sets the flag of the strategy. *)
Definition requesting (pm : PriorityMutex) (s : state) : Prop :=
  ph (high s) = Locking
  ∧ (match pm with
     | MutexAndAtomicBoolPriorityMutex => 1
     | MutexAndTwoBoolPriorityMutex => 2
     | _ => 0
     end ≤ pc (high s))%nat.

(** The low-priority worker is inside its lock call and has left its wait,
    the second statement of the call in both strategies. *)
Definition passed_wait (s : state) : Prop :=
  ph (low s) = Locking ∧ (2 ≤ pc (low s))%nat.

#[global] Instance requesting_dec pm s : Decision (requesting pm s).
Proof. unfold requesting. apply _. Defined.
#[global] Instance passed_wait_dec s : Decision (passed_wait s).
Proof. unfold passed_wait. apply _. Defined.

(** How many low-priority lock calls may still return ahead of a requesting
    high-priority worker: the one that has left its wait, if any. *)
Definition head_start (s : state) : nat :=
  if decide (passed_wait s) then 1 else 0.

(** The low-priority lock returns in a sequence of observations that come
    before the first high-priority one. *)
Fixpoint overtakes (tr : list obs) : nat :=
  match tr with
  | [] => 0
  | Acquired High :: _ => 0
  | Acquired Low :: rest => S (overtakes rest)
  | Released _ :: rest => overtakes rest
  end.

(** A step from a state in which the high-priority worker is requesting
    serves it, or leaves it requesting and spends the head start of the
    low-priority worker on each low-priority lock return. *)
Definition serves_high (pm : PriorityMutex) (s s' : state) : Prop :=
  requesting pm s →
  observe s s' = [Acquired High]
  ∨ (requesting pm s'
     ∧ acquisitions High (observe s s') = 0%nat
     ∧ (overtakes (observe s s') + head_start s' ≤ head_start s)%nat).

#[global] Instance serves_high_dec pm s s' : Decision (serves_high pm s s').
Proof. unfold serves_high. apply _. Defined.

(** With the flag of the strategy set, a step does not take the
    low-priority worker past its wait. *)
Definition holds_back_low (pm : PriorityMutex) (s s' : state) : Prop :=
  priority_flag pm (mem s) = true → passed_wait s' → passed_wait s.

#[global] Instance holds_back_low_dec pm s s' : Decision (holds_back_low pm s s').
Proof. unfold holds_back_low. apply _. Defined.

(** Every entry of a tally counts at least one win. *)
Definition entries_positive (m : gmap string Z) : Prop :=
  ∀ name c, m !! name = Some c → 1 ≤ c.

(** ** Further vocabulary: the accumulators of the thread functions *)

(** An [int64_t] after an addition or a subtraction. *)
Definition wrap64 (z : Z) : Z := (z + 2 ^ 63) `mod` 2 ^ 64 - 2 ^ 63.

(** The accumulator of a thread function after its loop, from the two clock
    readings of each iteration, in nanoseconds: [workTime] of
    [lowPriorityThreadFunction], read before and after the work, and
    [latencyTime] of [highPriorityThreadFunction], read before and after
    the lock call.  Both start at zero and add the difference of the two
    readings; the lock and unlock calls of an iteration do not touch
    them. *)
Definition accumulate (readings : list (Z * Z)) : Z :=
  foldl (λ acc '(startTime, endTime), wrap64 (acc + wrap64 (endTime - startTime)))
        0 readings.

(** The conversion of an [int64_t] to [double]: exact below [2 ^ 53] in
    magnitude; above, the nearest number with a 53-bit significand, the one
    with the even significand on a tie. *)
Definition to_double (z : Z) : Z :=
  let a := Z.abs z in
  if a <? 2 ^ 53 then z
  else
    let e := Z.log2 a - 52 in
    let q := a / 2 ^ e in
    let r := a `mod` 2 ^ e in
    let half := 2 ^ (e - 1) in
    let q' := if (half <? r) || ((r =? half) && Z.odd q) then q + 1 else q in
    Z.sgn z * (q' * 2 ^ e).

(** [d] is a [double] nearest to the [int64_t] [a]: [a] itself below
    [2 ^ 53] in magnitude; above, a multiple of the spacing of the [double]s
    around [a], not more than half a spacing away from it.  Either way it
    lies from [- 2 ^ 63] to [2 ^ 63]. *)
Definition nearest_double (a d : Z) : Prop :=
  let ulp := 2 ^ (Z.log2 (Z.abs a) - 52) in
  from_int64 d ∧
  (Z.abs a < 2 ^ 53 → d = a) ∧
  (2 ^ 53 ≤ Z.abs a → (∃ k, d = k * ulp) ∧ 2 * Z.abs (d - a) ≤ ulp).

(** The two [double] members a thread function assigns from the count of its
    accumulator when its loop is left. *)
Definition lowPriorityThreadWorkTime_ (readings : list (Z * Z)) : Z :=
  to_double (accumulate readings).

Definition highPriorityThreadLatencyTime_ (readings : list (Z * Z)) : Z :=
  to_double (accumulate readings).

(** The time between the two readings of each iteration, summed. *)
Definition measured_time (readings : list (Z * Z)) : Z :=
  foldr (λ '(startTime, endTime) acc, (endTime - startTime) + acc) 0 readings.

(** The readings of a clock that never steps back, none before [t]. *)
Fixpoint steady_from (t : Z) (readings : list (Z * Z)) : Prop :=
  match readings with
  | [] => True
  | (startTime, endTime) :: rest =>
      t ≤ startTime ∧ startTime ≤ endTime ∧ steady_from endTime rest
  end.

(** The last reading, [t] when there is none. *)
Fixpoint end_of (t : Z) (readings : list (Z * Z)) : Z :=
  match readings with
  | [] => t
  | (_, endTime) :: rest => end_of endTime rest
  end.
(** ** Soundness of the exploration *)

Lemma all_events_complete (e : event) : e ∈ all_events.
Proof. unfold all_events. destruct e as [[]|[]|]; set_solver. Qed.

Lemma step_successor impl pm e s s' :
  step impl pm e s = Some s' → s' ∈ successors impl pm s.
Proof.
  intros Hstep. unfold successors. apply list_elem_of_omap.
  exists e. split; [apply all_events_complete | exact Hstep].
Qed.

Lemma closed_step impl pm R e s s' :
  closed impl pm R = true → s ∈ R → step impl pm e s = Some s' → s' ∈ R.
Proof.
  unfold closed. rewrite forallb_forall. intros Hcl Hs Hstep.
  apply list_elem_of_In in Hs. specialize (Hcl s Hs).
  rewrite forallb_forall in Hcl.
  apply step_successor, list_elem_of_In, Hcl in Hstep.
  by apply bool_decide_eq_true in Hstep.
Qed.

Lemma closed_exec impl pm R sched :
  closed impl pm R = true →
  ∀ s s', s ∈ R → exec impl pm sched s = Some s' → s' ∈ R.
Proof.
  intros Hcl. induction sched as [|e rest IH]; intros s s' Hs Hex; simpl in Hex.
  - by inversion Hex; subst.
  - destruct (step impl pm e s) as [s1|] eqn:Hstep; [|discriminate].
    eapply IH; [|exact Hex]. eapply closed_step; eauto.
Qed.

Lemma reached_closed impl pm : closed impl pm (reached impl pm) = true.
Proof. destruct impl, pm; vm_compute; reflexivity. Qed.

Lemma launch_reached impl pm : launch fresh ∈ reached impl pm.
Proof.
  apply (bool_decide_eq_true_1 _).
  destruct impl, pm; vm_compute; reflexivity.
Qed.

Lemma run_reached impl pm sched s :
  run impl pm sched = Some s → s ∈ reached impl pm.
Proof.
  unfold run. apply closed_exec; [apply reached_closed | apply launch_reached].
Qed.

Lemma always_run impl pm P sched s :
  always impl pm P = true → run impl pm sched = Some s → P s = true.
Proof.
  unfold always. rewrite forallb_forall. intros HP Hrun.
  apply HP, list_elem_of_In. by eapply run_reached.
Qed.

Lemma always_step_reached impl pm Q s e s' :
  always_step impl pm Q = true →
  s ∈ reached impl pm → step impl pm e s = Some s' → Q s e s' = true.
Proof.
  unfold always_step. rewrite forallb_forall. intros HQ Hs Hstep.
  apply list_elem_of_In, HQ in Hs.
  rewrite forallb_forall in Hs.
  specialize (Hs e (proj1 (list_elem_of_In _ _) (all_events_complete e))).
  by rewrite Hstep in Hs.
Qed.

Lemma always_step_run impl pm Q sched s e s' :
  always_step impl pm Q = true →
  run impl pm sched = Some s → step impl pm e s = Some s' → Q s e s' = true.
Proof.
  intros HQ Hrun. apply always_step_reached; [exact HQ|].
  by eapply run_reached.
Qed.

Lemma invariant impl pm (P : state → Prop) `{!∀ s, Decision (P s)} sched s :
  always impl pm (λ s, bool_decide (P s)) = true →
  run impl pm sched = Some s → P s.
Proof.
  intros Hall Hrun. eapply bool_decide_eq_true_1.
  exact (always_run impl pm _ sched s Hall Hrun).
Qed.

Lemma step_invariant impl pm (Q : state → event → state → Prop)
    `{!∀ s e s', Decision (Q s e s')} sched s e s' :
  always_step impl pm (λ s e s', bool_decide (Q s e s')) = true →
  run impl pm sched = Some s → step impl pm e s = Some s' → Q s e s'.
Proof.
  intros Hall Hrun Hstep. eapply bool_decide_eq_true_1.
  exact (always_step_run impl pm _ sched s e s' Hall Hrun Hstep).
Qed.

Ltac model_check := vm_compute; reflexivity.

(** ** The library calls stay within their contracts *)

(** A worker about to unlock a mutex, or to test the predicate of a wait,
    has that mutex locked. *)
Lemma preconditions_met impl pm sched s w :
  run impl pm sched = Some s → in_contract pm w s.
Proof.
  apply (invariant impl pm (λ s, in_contract pm w s)).
  destruct impl, pm, w; model_check.
Qed.

(** The only exception a run can raise is that of the wait in
    [lockHighPriority] of the Preferenced strategy, on the lock it is
    handed without owning it, in a library that tests it; the low-priority
    worker has then set [dataHeld_] and not cleared it yet. *)
Lemma only_the_wait_throws impl pm sched s :
  run impl pm sched = Some s → terminated s = true →
  impl = OwnsChecked ∧ pm = MutexAndTwoBoolPriorityMutex
  ∧ at_stmt High Locking 2 s ∧ marked Low s.
Proof.
  apply (invariant impl pm (λ s, terminated s = true →
    impl = OwnsChecked ∧ pm = MutexAndTwoBoolPriorityMutex
    ∧ at_stmt High Locking 2 s ∧ marked Low s)).
  destruct impl, pm; model_check.
Qed.

(** ** Mutual exclusion *)

Lemma holder_trace_exec impl pm sched :
  ∀ s tr s', holder_trace impl pm sched s = Some (tr, s') →
             exec impl pm sched s = Some s'.
Proof.
  induction sched as [|e rest IH]; intros s tr s' Htr; simpl in *.
  - by injection Htr as _ <-.
  - destruct (step impl pm e s) as [s1|]; [|discriminate].
    destruct (holder_trace impl pm rest s1) as [[tr1 s1']|] eqn:Hrest;
      [|discriminate].
    injection Htr as _ <-. by eapply IH.
Qed.

Lemma track_app cur t1 t2 :
  track cur (t1 ++ t2) = track cur t1 ≫= λ c, track c t2.
Proof.
  revert cur. induction t1 as [|[w|w] t1 IH]; intros cur; simpl; [done| |].
  - destruct cur; [done | apply IH].
  - destruct (decide (cur = Some w)); [apply IH | done].
Qed.

Lemma steps_tracked impl pm :
  always_step impl pm (λ s e s', bool_decide
    (track (holder s) (observe s s') = Some (holder s'))) = true.
Proof. destruct impl, pm; model_check. Qed.

Lemma trace_tracked impl pm sched :
  ∀ s tr s', s ∈ reached impl pm →
    holder_trace impl pm sched s = Some (tr, s') →
    track (holder s) tr = Some (holder s').
Proof.
  induction sched as [|e rest IH]; intros s tr s' Hs Htr; simpl in Htr.
  - by injection Htr as <- <-.
  - destruct (step impl pm e s) as [s1|] eqn:Hstep; [|discriminate].
    destruct (holder_trace impl pm rest s1) as [[tr1 s1']|] eqn:Hrest;
      [|discriminate].
    injection Htr as <- <-.
    pose proof (always_step_reached _ _ _ _ _ _ (steps_tracked impl pm) Hs Hstep)
      as Hone.
    apply bool_decide_eq_true_1 in Hone.
    rewrite track_app, Hone. simpl. apply (IH s1); [|done].
    eapply closed_step; [apply reached_closed | exact Hs | exact Hstep].
Qed.

(** C1. For each of the four strategies and every interleaving of the two
    workers, the low- and the high-priority worker are never both between
    the return of their lock call and their unlock call, and in the
    sequence of lock returns and unlock calls of the run every lock return
    finds the resource free: the intervals in which the workers hold the
    resource do not overlap. *)
Theorem mutual_exclusion impl pm sched tr s :
  holder_trace impl pm sched (launch fresh) = Some (tr, s) →
  ¬ (holds Low s ∧ holds High s) ∧ exclusive tr.
Proof.
  intros Htr. split.
  - apply holder_trace_exec in Htr. revert Htr.
    apply (invariant impl pm (λ s, ¬ (holds Low s ∧ holds High s))).
    destruct impl, pm; model_check.
  - unfold exclusive.
    pose proof (trace_tracked impl pm sched _ _ _ (launch_reached impl pm) Htr)
      as Htrack.
    change (holder (launch fresh)) with (@None worker) in Htrack.
    by rewrite Htrack.
Qed.

(** The low-priority worker is in its critical region and the high-priority
    worker has attempted its lock under the Preferenced strategy. *)
Lemma mutual_exclusion_witness :
  ∃ s, holder_trace NativeHandle MutexAndTwoBoolPriorityMutex
         (solo Low 7 ++ solo High 5) (launch fresh) = Some ([Acquired Low], s)
       ∧ holds Low s
       ∧ (¬ (holds Low s ∧ holds High s) ∧ exclusive [Acquired Low]).
Proof.
  exists (state_after NativeHandle MutexAndTwoBoolPriorityMutex
            (solo Low 7 ++ solo High 5)).
  split; [vm_compute; reflexivity|]. split; [vm_compute; reflexivity|].
  apply (mutual_exclusion NativeHandle MutexAndTwoBoolPriorityMutex
           (solo Low 7 ++ solo High 5)).
  vm_compute; reflexivity.
Defined.

(** ** The intent flag of the Flagged strategy *)

(** C2, as stated, fails: after six steps of the high-priority worker (the
    loop test, the call, the three statements of [lockHighPriority] and the
    return) its lock call has returned and [waiting_] is already [false]. *)
Lemma waiting_false_in_critical_region :
  ¬ (∀ sched s,
       run NativeHandle MutexAndAtomicBoolPriorityMutex sched = Some s →
       holds High s → waiting (mem s) = true).
Proof.
  intros H.
  specialize (H (solo High 6)
                (state_after NativeHandle MutexAndAtomicBoolPriorityMutex (solo High 6))).
  assert (Hflag : waiting (mem (state_after NativeHandle
            MutexAndAtomicBoolPriorityMutex (solo High 6))) = true)
    by (apply H; vm_compute; reflexivity).
  vm_compute in Hflag. discriminate Hflag.
Qed.

(** C2, amended. In the Flagged strategy [waiting_] is true exactly while
    the high-priority worker is inside its lock call between the store that
    sets the flag and the store, after the lock is taken, that clears it;
    the flag is false throughout the high-priority critical region and the
    unlock call, whose steps do not write it. *)
Theorem waiting_flag_window impl sched s e s' :
  run impl MutexAndAtomicBoolPriorityMutex sched = Some s →
  step impl MutexAndAtomicBoolPriorityMutex e s = Some s' →
  (waiting (mem s) = true ↔ acquiring s) ∧
  (holds High s ∨ ph (high s) = Unlocking → waiting (mem s) = false) ∧
  (ph (high s) = Unlocking → waiting (mem s') = waiting (mem s)).
Proof.
  apply (step_invariant impl MutexAndAtomicBoolPriorityMutex (λ s e s',
    (waiting (mem s) = true ↔ acquiring s) ∧
    (holds High s ∨ ph (high s) = Unlocking → waiting (mem s) = false) ∧
    (ph (high s) = Unlocking → waiting (mem s') = waiting (mem s)))).
  destruct impl; model_check.
Qed.

Lemma waiting_flag_window_witness :
  ∃ s s',
    run NativeHandle MutexAndAtomicBoolPriorityMutex (solo Low 5 ++ solo High 3) = Some s
    ∧ step NativeHandle MutexAndAtomicBoolPriorityMutex (Run Low) s = Some s'
    ∧ waiting (mem s) = true
    ∧ ((waiting (mem s) = true ↔ acquiring s) ∧
       (holds High s ∨ ph (high s) = Unlocking → waiting (mem s) = false) ∧
       (ph (high s) = Unlocking → waiting (mem s') = waiting (mem s))).
Proof.
  exists (state_after NativeHandle MutexAndAtomicBoolPriorityMutex
            (solo Low 5 ++ solo High 3)),
         (state_after NativeHandle MutexAndAtomicBoolPriorityMutex
            (solo Low 5 ++ solo High 3 ++ [Run Low])).
  split; [vm_compute; reflexivity|]. split; [vm_compute; reflexivity|].
  split; [vm_compute; reflexivity|].
  apply (waiting_flag_window NativeHandle (solo Low 5 ++ solo High 3) _ (Run Low));
    vm_compute; reflexivity.
Defined.

(** ** The two flags of the Preferenced strategy *)



(** ** No preemption *)

Lemma track_after_acquire cur before w rest c :
  track cur (before ++ Acquired w :: rest) = Some c →
  rest = [] ∨ ∃ rest', rest = Released w :: rest'.
Proof.
  rewrite track_app. destruct (track cur before) as [[c1|]|]; simpl; try done.
  destruct rest as [|[w'|w'] rest']; [by left | done |].
  simpl. destruct (decide (Some w = Some w')) as [[= ->]|]; [|done].
  right. by exists rest'.
Qed.

(** C4. In the Flagged and the Preferenced strategy, in the sequence of
    lock returns and unlock calls of any run the return of a low-priority
    lock call is followed by nothing but the matching unlock call; and
    while the low-priority worker is in its critical region no step lets a
    high-priority lock call return: the high-priority worker is not in its
    critical region after the step, and if it was inside its lock call it
    still is. *)
Theorem no_preemption impl pm sched tr s e s' :
  pm = MutexAndAtomicBoolPriorityMutex ∨ pm = MutexAndTwoBoolPriorityMutex →
  holder_trace impl pm sched (launch fresh) = Some (tr, s) →
  (∀ before rest, tr = before ++ Acquired Low :: rest →
     rest = [] ∨ ∃ rest', rest = Released Low :: rest') ∧
  (holds Low s → step impl pm e s = Some s' →
   ¬ holds High s' ∧ (ph (high s) = Locking → ph (high s') = Locking)).
Proof.
  intros Hpm Htr. split.
  - intros before rest ->.
    pose proof (trace_tracked impl pm sched _ _ _ (launch_reached impl pm) Htr)
      as Htrack.
    by eapply track_after_acquire.
  - intros Hlow Hstep. apply holder_trace_exec in Htr. revert Hlow.
    apply (step_invariant impl pm (λ s e s',
      holds Low s →
      ¬ holds High s' ∧ (ph (high s) = Locking → ph (high s') = Locking))
      sched s e s'); [|exact Htr|exact Hstep].
    destruct Hpm as [-> | ->]; destruct impl; model_check.
Qed.

(** The low-priority worker holds the resource; the high-priority worker
    reaches its wait and blocks there. *)
Lemma no_preemption_witness :
  ∃ s s',
    holder_trace NativeHandle MutexAndTwoBoolPriorityMutex
      (solo Low 7 ++ solo High 4) (launch fresh) = Some ([Acquired Low], s)
    ∧ holds Low s
    ∧ step NativeHandle MutexAndTwoBoolPriorityMutex (Run High) s = Some s'
    ∧ cv (high s') = Blocked
    ∧ ¬ holds High s' ∧ (ph (high s) = Locking → ph (high s') = Locking).
Proof.
  exists (state_after NativeHandle MutexAndTwoBoolPriorityMutex
            (solo Low 7 ++ solo High 4)),
         (state_after NativeHandle MutexAndTwoBoolPriorityMutex
            (solo Low 7 ++ solo High 5)).
  split; [vm_compute; reflexivity|]. split; [vm_compute; reflexivity|].
  split; [vm_compute; reflexivity|]. split; [vm_compute; reflexivity|].
  apply (no_preemption NativeHandle MutexAndTwoBoolPriorityMutex
           (solo Low 7 ++ solo High 4) [Acquired Low] _ (Run High));
    [right; reflexivity | vm_compute; reflexivity ..].
Defined.

(** ** The invariant of [dataHeld_] *)

(** C9, as stated, fails: [dataHeld_] is set inside the lock call, two
    statements before the call returns.  After six steps of the
    low-priority worker (the loop test, the call and the four statements of
    [lockLowPriority]) the flag is true, the call has not returned, and no
    worker is between a completed lock call and the end of its unlock
    call. *)
Lemma dataHeld_set_before_lock_returns :
  ¬ (∀ sched s,
       run NativeHandle MutexAndTwoBoolPriorityMutex sched = Some s →
       dataHeld (mem s) = true →
       lock_to_unlock Low s ∨ lock_to_unlock High s).
Proof.
  intros H.
  destruct (H (solo Low 6)
              (state_after NativeHandle MutexAndTwoBoolPriorityMutex (solo Low 6)))
    as [[Hl | Hl] | [Hh | Hh]];
    [vm_compute; reflexivity | vm_compute; reflexivity
     | vm_compute in Hl | vm_compute in Hl
     | vm_compute in Hh | vm_compute in Hh]; discriminate.
Qed.

(** C9, amended. In the Preferenced strategy, along every interleaving:
    [dataHeld_] is true exactly when one worker, and never both, is between
    the store of [true] in its lock call and the store of [false] in its
    unlock call, a span that starts before the lock call returns and ends
    inside the unlock call; [dataHeld_] goes from false to true only by the
    store of a lock call whose caller has the internal mutex locked, and
    from true to false only by the store of an unlock call; and a worker in
    its critical region has [dataHeld_] set and no mutex locked. *)
Theorem dataHeld_discipline impl sched s e s' w m :
  run impl MutexAndTwoBoolPriorityMutex sched = Some s →
  step impl MutexAndTwoBoolPriorityMutex e s = Some s' →
  dataHeld_invariant s ∧ dataHeld_invariant s' ∧ dataHeld_writers s e s' ∧
  (holds w s → owner m (mem s) ≠ Some w ∧ dataHeld (mem s) = true).
Proof.
  apply (step_invariant impl MutexAndTwoBoolPriorityMutex (λ s e s',
    dataHeld_invariant s ∧ dataHeld_invariant s' ∧ dataHeld_writers s e s' ∧
    (holds w s → owner m (mem s) ≠ Some w ∧ dataHeld (mem s) = true))).
  destruct impl, w, m; model_check.
Qed.

(** The low-priority worker, the internal mutex locked, stores [true]. *)
Lemma dataHeld_discipline_witness :
  ∃ s s',
    run NativeHandle MutexAndTwoBoolPriorityMutex (solo Low 4) = Some s
    ∧ step NativeHandle MutexAndTwoBoolPriorityMutex (Run Low) s = Some s'
    ∧ dataHeld (mem s) = false ∧ dataHeld (mem s') = true
    ∧ ph (low s') = Locking
    ∧ (dataHeld_invariant s ∧ dataHeld_invariant s'
       ∧ dataHeld_writers s (Run Low) s'
       ∧ (holds Low s → owner dataMutex_ (mem s) ≠ Some Low
                        ∧ dataHeld (mem s) = true)).
Proof.
  exists (state_after NativeHandle MutexAndTwoBoolPriorityMutex (solo Low 4)),
         (state_after NativeHandle MutexAndTwoBoolPriorityMutex (solo Low 5)).
  split; [vm_compute; reflexivity|]. split; [vm_compute; reflexivity|].
  split; [vm_compute; reflexivity|]. split; [vm_compute; reflexivity|].
  split; [vm_compute; reflexivity|].
  apply (dataHeld_discipline NativeHandle (solo Low 4) _ (Run Low));
    vm_compute; reflexivity.
Defined.

(** ** Reuse of the strategy instances *)

Lemma joined_fresh impl pm sched s :
  run impl pm sched = Some s → joined s → mem s = fresh.
Proof.
  apply (invariant impl pm (λ s, joined s → mem s = fresh)).
  destruct impl, pm; model_check.
Qed.

Lemma run_leaves_fresh impl t sched σ :
  ContentionTest_run impl t sched fresh = Some σ → σ = fresh.
Proof.
  unfold ContentionTest_run.
  destruct (exec impl (priorityMutex_ t) sched (launch fresh)) as [s|] eqn:Hex;
    [|discriminate].
  destruct (decide (joined s)) as [Hj|]; [|discriminate].
  intros [= <-]. by eapply joined_fresh.
Qed.

(** C7. [main] builds each strategy instance once and runs every parameter
    combination on it; for every strategy and whatever the interleavings of
    the runs, each run that follows completed runs starts on members equal
    to those of a freshly constructed instance. *)
Theorem every_run_starts_fresh impl pm runs starts :
  reuse impl pm fresh runs = Some starts → Forall (λ σ, σ = fresh) starts.
Proof.
  revert starts. induction runs as [|[[[lo hi] sl] sched] rest IH];
    intros starts; simpl.
  - intros [= <-]. by constructor.
  - destruct (ContentionTest_run _ _ sched fresh) as [σ'|] eqn:Hrun;
      [|discriminate].
    apply run_leaves_fresh in Hrun. subst σ'.
    destruct (reuse impl pm fresh rest) as [tl|]; [|discriminate].
    intros [= <-]. constructor; [reflexivity | by apply IH].
Qed.

(** Two consecutive runs on the one Preferenced instance. *)
Lemma every_run_starts_fresh_witness :
  ∃ starts,
    reuse NativeHandle MutexAndTwoBoolPriorityMutex fresh
      [(1, 1, 1, one_round_each); (1, 1, 10, one_round_each)] = Some starts
    ∧ length starts = 3%nat
    ∧ Forall (λ σ, σ = fresh) starts.
Proof.
  exists [fresh; fresh; fresh].
  split; [vm_compute; reflexivity|]. split; [reflexivity|].
  apply (every_run_starts_fresh NativeHandle MutexAndTwoBoolPriorityMutex
           [(1, 1, 1, one_round_each); (1, 1, 10, one_round_each)]).
  vm_compute; reflexivity.
Defined.

(** ** The Gated strategy against the Plain one *)

Lemma holder_trace_app impl pm es1 es2 s :
  holder_trace impl pm (es1 ++ es2) s =
  match holder_trace impl pm es1 s with
  | Some (t1, s1) =>
      match holder_trace impl pm es2 s1 with
      | Some (t2, s2) => Some (t1 ++ t2, s2)
      | None => None
      end
  | None => None
  end.
Proof.
  revert s. induction es1 as [|e es1 IH]; intros s; simpl.
  - by destruct (holder_trace impl pm es2 s) as [[t2 s2]|].
  - destruct (step impl pm e s) as [s1|]; [|done].
    rewrite IH. destruct (holder_trace impl pm es1 s1) as [[t1 s1']|]; [|done].
    destruct (holder_trace impl pm es2 s1') as [[t2 s2]|]; [|done].
    by rewrite (assoc_L (++)).
Qed.

Section Simulation.
Variables (impl : cv_impl) (A B : PriorityMutex).
Variables (f : state → state) (ev : event → state → list event) (h : obs → obs).
Hypothesis Hsim :
  always_step impl A (λ s e s', bool_decide (answers impl B f ev h s e s')) = true.

Lemma simulation sched :
  ∀ s tr s', s ∈ reached impl A →
    holder_trace impl A sched s = Some (tr, s') →
    ∃ sched', holder_trace impl B sched' (f s) = Some (h <$> tr, f s').
Proof using Hsim.
  induction sched as [|e rest IH]; intros s tr s' Hs Htr; simpl in Htr.
  - injection Htr as <- <-. by exists [].
  - destruct (step impl A e s) as [s1|] eqn:Hstep; [|discriminate].
    destruct (holder_trace impl A rest s1) as [[tr1 s1']|] eqn:Hrest;
      [|discriminate].
    injection Htr as <- <-.
    assert (Hs1 : s1 ∈ reached impl A)
      by (eapply closed_step; [apply reached_closed | exact Hs | exact Hstep]).
    destruct (IH _ _ _ Hs1 Hrest) as [rest' Hrest'].
    pose proof (always_step_reached _ _ _ _ _ _ Hsim Hs Hstep) as Hans.
    apply bool_decide_eq_true_1 in Hans. unfold answers in Hans.
    exists (ev e s ++ rest').
    by rewrite holder_trace_app, Hans, Hrest', fmap_app.
Qed.
End Simulation.

Lemma gated_answered_by_plain impl :
  always_step impl TwoMutexPriorityMutex (λ s e s', bool_decide
    (answers impl BasicPriorityMutex plain_of plain_events id s e s')) = true.
Proof. destruct impl; model_check. Qed.

Lemma plain_answered_by_gated impl :
  always_step impl BasicPriorityMutex (λ s e s', bool_decide
    (answers impl TwoMutexPriorityMutex gated_of gated_events id s e s')) = true.
Proof. destruct impl; model_check. Qed.

Lemma symmetric_reached impl pm s e :
  symmetric impl pm = true →
  s ∈ reached impl pm → symmetric_step impl pm e s.
Proof.
  unfold symmetric. rewrite forallb_forall. intros Hall Hs.
  apply list_elem_of_In, Hall in Hs. rewrite forallb_forall in Hs.
  specialize (Hs e (proj1 (list_elem_of_In _ _) (all_events_complete e))).
  by apply bool_decide_eq_true_1 in Hs.
Qed.

(** In a strategy that treats the two workers alike, exchanging the roles
    in a schedule exchanges them in the run. *)
Lemma mirrored_trace impl pm sched :
  symmetric impl pm = true →
  ∀ s, s ∈ reached impl pm →
    holder_trace impl pm (swap_event <$> sched) (swap_state s)
    = swap_view <$> holder_trace impl pm sched s.
Proof.
  intros Hsym.
  induction sched as [|e rest IH]; intros s Hs; [reflexivity|].
  rewrite fmap_cons. cbn [holder_trace].
  destruct (symmetric_reached impl pm s e Hsym Hs) as [Hstep Hobs].
  rewrite Hstep. destruct (step impl pm e s) as [s1|] eqn:H1; [|reflexivity].
  cbn [fmap option_fmap option_map].
  rewrite IH by (eapply closed_step; [apply reached_closed | exact Hs | exact H1]).
  destruct (holder_trace impl pm rest s1) as [[tr s2]|]; [|reflexivity].
  cbn [fmap option_fmap option_map]. unfold swap_view. cbn [fst snd].
  by rewrite (Hobs s1 eq_refl), fmap_app.
Qed.

Lemma gated_symmetric impl : symmetric impl TwoMutexPriorityMutex = true.
Proof. destruct impl; model_check. Qed.

Lemma steps_for_acquire impl pm w :
  holder_trace impl pm (steps_for pm (Acquired w)) (launch fresh)
  = Some ([Acquired w], held_by impl pm (Some w)).
Proof. destruct impl, pm, w; model_check. Qed.

Lemma steps_for_release impl pm w :
  holder_trace impl pm (steps_for pm (Released w)) (held_by impl pm (Some w))
  = Some ([Released w], launch fresh).
Proof. destruct impl, pm, w; model_check. Qed.

(** Every sequence of acquisitions and releases in which the intervals do
    not overlap is the holder trace of a run. *)
Lemma exclusive_realised impl pm tr :
  ∀ cur c, track cur tr = Some c →
    holder_trace impl pm (tr ≫= steps_for pm) (held_by impl pm cur)
    = Some (tr, held_by impl pm c).
Proof.
  induction tr as [|[w|w] tr IH]; intros cur c Htr; cbn [track] in Htr.
  - by injection Htr as <-.
  - destruct cur; [discriminate|].
    rewrite bind_cons, holder_trace_app.
    change (held_by impl pm None) with (launch fresh).
    by rewrite steps_for_acquire, (IH _ _ Htr).
  - destruct (decide (cur = Some w)) as [->|]; [|discriminate].
    rewrite bind_cons, holder_trace_app.
    rewrite steps_for_release.
    change (launch fresh) with (held_by impl pm None).
    by rewrite (IH _ _ Htr).
Qed.

(** Schedules on which the Flagged and the Preferenced strategy tell the
    two workers apart: the high-priority worker announces itself (and, in
    the Preferenced strategy, takes the resource), then the low-priority
    worker comes to its wait and blocks. *)
Lemma flagged_not_symmetric impl :
  holder_trace impl MutexAndAtomicBoolPriorityMutex
    (swap_event <$> (solo High 3 ++ solo Low 4)) (launch fresh)
  ≠ swap_view <$> holder_trace impl MutexAndAtomicBoolPriorityMutex
                    (solo High 3 ++ solo Low 4) (launch fresh).
Proof. destruct impl; vm_compute; discriminate. Qed.

Lemma preferenced_not_symmetric impl :
  holder_trace impl MutexAndTwoBoolPriorityMutex
    (swap_event <$> (solo High 8 ++ solo Low 4)) (launch fresh)
  ≠ swap_view <$> holder_trace impl MutexAndTwoBoolPriorityMutex
                    (solo High 8 ++ solo Low 4) (launch fresh).
Proof. destruct impl; vm_compute; discriminate. Qed.

(** C5. In the Gated strategy both lock methods are the same three
    statements (lock the gate, lock the data mutex, unlock the gate) and
    both unlock methods only unlock the data mutex: they are the methods of
    the Plain strategy on [dataMutex_], the lock method wrapped in the
    gate.  An observer of who holds the resource cannot tell the Gated
    strategy from the Plain one: the two have the same sequences of
    acquisitions and releases, which are all the sequences in which the
    intervals of holding do not overlap.  And the Gated strategy does not
    differentiate the priorities: exchanging the roles of the two workers
    in any schedule exchanges them in the run, in whether it can be
    carried out, in what it shows and in the state it reaches.  The Flagged
    and the Preferenced strategy do tell the workers apart: each has a
    schedule for which that fails. *)
Theorem gated_is_plain_behind_a_gate impl :
  lockLowPriority TwoMutexPriorityMutex =
    [mutex_lock nextToAccessMutex_; mutex_lock dataMutex_;
     mutex_unlock nextToAccessMutex_] ∧
  lockHighPriority TwoMutexPriorityMutex = lockLowPriority TwoMutexPriorityMutex ∧
  unlockLowPriority TwoMutexPriorityMutex = [mutex_unlock dataMutex_] ∧
  unlockHighPriority TwoMutexPriorityMutex = unlockLowPriority TwoMutexPriorityMutex ∧
  (∀ w, (match w with Low => lockLowPriority | High => lockHighPriority end)
          TwoMutexPriorityMutex
        = behind_gate ((match w with
                        | Low => lockLowPriority
                        | High => lockHighPriority
                        end) BasicPriorityMutex)
        ∧ (match w with Low => unlockLowPriority | High => unlockHighPriority end)
            TwoMutexPriorityMutex
          = on_dataMutex <$> (match w with
                              | Low => unlockLowPriority
                              | High => unlockHighPriority
                              end) BasicPriorityMutex) ∧
  (∀ tr, holder_traces impl TwoMutexPriorityMutex tr
         ↔ holder_traces impl BasicPriorityMutex tr) ∧
  (∀ tr, holder_traces impl TwoMutexPriorityMutex tr ↔ exclusive tr) ∧
  (∀ sched,
     holder_trace impl TwoMutexPriorityMutex (swap_event <$> sched) (launch fresh)
     = swap_view <$> holder_trace impl TwoMutexPriorityMutex sched (launch fresh)) ∧
  (∀ pm, pm = MutexAndAtomicBoolPriorityMutex ∨ pm = MutexAndTwoBoolPriorityMutex →
     ¬ ∀ sched,
         holder_trace impl pm (swap_event <$> sched) (launch fresh)
         = swap_view <$> holder_trace impl pm sched (launch fresh)).
Proof.
  repeat (split; [reflexivity|]).
  split; [by intros []|].
  unfold holder_traces. split; [|split; [|split]].
  - intros tr. split; intros (sched & s & Htr).
    + destruct (simulation impl _ _ _ _ _ (gated_answered_by_plain impl)
                  sched _ _ _ (launch_reached impl _) Htr) as [sched' H'].
      rewrite list_fmap_id in H'. by exists sched', (plain_of s).
    + destruct (simulation impl _ _ _ _ _ (plain_answered_by_gated impl)
                  sched _ _ _ (launch_reached impl _) Htr) as [sched' H'].
      rewrite list_fmap_id in H'. by exists sched', (gated_of s).
  - intros tr. split.
    + intros (sched & s & Htr). unfold exclusive.
      pose proof (trace_tracked impl _ sched _ _ _ (launch_reached impl _) Htr)
        as Htrack.
      change (holder (launch fresh)) with (@None worker) in Htrack.
      by rewrite Htrack.
    + intros [c Hc].
      exists (tr ≫= steps_for TwoMutexPriorityMutex),
             (held_by impl TwoMutexPriorityMutex c).
      exact (exclusive_realised impl TwoMutexPriorityMutex tr None c Hc).
  - intros sched.
    exact (mirrored_trace impl TwoMutexPriorityMutex sched (gated_symmetric impl)
             (launch fresh) (launch_reached impl _)).
  - intros pm [-> | ->] Hall.
    + exact (flagged_not_symmetric impl (Hall (solo High 3 ++ solo Low 4))).
    + exact (preferenced_not_symmetric impl (Hall (solo High 8 ++ solo Low 4))).
Qed.

(** The traces are not trivial: low, then high, take the resource under the
    Gated strategy. *)
Example gated_trace_low_then_high :
  holder_traces NativeHandle TwoMutexPriorityMutex
    [Acquired Low; Released Low; Acquired High; Released High].
Proof.
  exists (solo Low 9 ++ solo High 9),
         (state_after NativeHandle TwoMutexPriorityMutex (solo Low 9 ++ solo High 9)).
  vm_compute; reflexivity.
Qed.

(** ** The sweep *)

Lemma scan_spec {A} (val : A → Z) (label : A → string) (l : list A) :
  ∀ b,
    let r := scan val label l b in
    b.1 ≤ r.1 ∧
    (∀ j a, l !! j = Some a → val a ≤ r.1) ∧
    (r = b ∨
     ∃ i a, l !! i = Some a ∧ r = (val a, label a) ∧ b.1 < r.1 ∧
            ∀ j a', (j < i)%nat → l !! j = Some a' → val a' < r.1).
Proof.
  induction l as [|x l IH]; intros b; simpl.
  - split; [lia|]. split; [|by left]. intros j a Hj. by destruct j.
  - set (b1 := if val x >? b.1 then (val x, label x) else b).
    assert (Hb1 : b.1 ≤ b1.1 ∧ val x ≤ b1.1
                  ∧ (b1 = b ∨ (b1 = (val x, label x) ∧ b.1 < val x))).
    { unfold b1. destruct (Z.gtb_spec (val x) b.1); simpl.
      - split; [lia|]. split; [lia|]. right. split; [done|lia].
      - split; [lia|]. split; [lia|]. by left. }
    destruct Hb1 as (Hle & Hx & Hcase).
    destruct (IH b1) as (IH1 & IH2 & IH3). fold (scan val label l b1) in *.
    split; [lia|]. split.
    + intros [|j] a Hj; simpl in Hj; [injection Hj as <-; lia | by eapply IH2].
    + destruct IH3 as [Heq | (i & a & Hi & Hr & Hlt & Hbefore)].
      * rewrite Heq in *. destruct Hcase as [-> | [-> Hbx]]; [by left|].
        right. exists 0%nat, x. simpl. split; [done|]. split; [done|].
        split; [done|]. intros j a' Hj. lia.
      * right. exists (S i), a. split; [done|]. split; [done|]. split; [lia|].
        intros [|j] a' Hj Ha'; simpl in Ha'.
        -- injection Ha' as <-. lia.
        -- eapply Hbefore; [|done]. lia.
Qed.

Lemma compare_result_low v h name b :
  (bestLow (compare_result (v, h) name b), bestLowName (compare_result (v, h) name b))
  = if v >? bestLow b then (v, name) else (bestLow b, bestLowName b).
Proof.
  unfold compare_result.
  destruct (v >? bestLow b); destruct (h <? _); reflexivity.
Qed.

Lemma compare_result_high v h name b :
  (- bestHigh (compare_result (v, h) name b), bestHighName (compare_result (v, h) name b))
  = if - h >? - bestHigh b then (- h, name) else (- bestHigh b, bestHighName b).
Proof.
  unfold compare_result.
  destruct (v >? bestLow b); simpl;
    destruct (Z.ltb_spec h (bestHigh b)), (Z.gtb_spec (- h) (- bestHigh b));
    simpl; try reflexivity; lia.
Qed.

Lemma contest_from_low vals l :
  ∀ b, (bestLow (contest_from vals l b), bestLowName (contest_from vals l b))
       = scan (λ x, (vals x.1).1) snd l (bestLow b, bestLowName b).
Proof.
  induction l as [|[pm name] l IH]; intros b; [reflexivity|].
  simpl. rewrite IH. destruct (vals pm) as [v h] eqn:Hv.
  by rewrite compare_result_low.
Qed.

Lemma contest_from_high vals l :
  ∀ b, (- bestHigh (contest_from vals l b), bestHighName (contest_from vals l b))
       = scan (λ x, - (vals x.1).2) snd l (- bestHigh b, bestHighName b).
Proof.
  induction l as [|[pm name] l IH]; intros b; [reflexivity|].
  simpl. rewrite IH. destruct (vals pm) as [v h] eqn:Hv.
  by rewrite compare_result_high.
Qed.

Lemma strategy_listed (pm : PriorityMutex) :
  ∃ i name, priorityMutexes !! i = Some (pm, name).
Proof.
  destruct pm;
    [exists 0%nat | exists 1%nat | exists 2%nat | exists 3%nat]; eexists; reflexivity.
Qed.

Lemma names_distinct i j pm pm' name :
  priorityMutexes !! i = Some (pm, name) →
  priorityMutexes !! j = Some (pm', name) → i = j ∧ pm = pm'.
Proof.
  intros Hi Hj.
  destruct i as [|[|[|[|?]]]]; simpl in Hi; try discriminate Hi;
    injection Hi as <- <-;
    destruct j as [|[|[|[|?]]]]; simpl in Hj; try discriminate Hj;
    injection Hj as <-; done.
Qed.

Lemma names_not_empty i pm :
  priorityMutexes !! i = Some (pm, EmptyString) → False.
Proof. destruct i as [|[|[|[|?]]]]; simpl; discriminate. Qed.

(** The low axis of one combination: the best work time is the greatest of
    zero and the four times; above zero it belongs to the first strategy
    that reaches it. *)
Lemma low_axis measure shape :
  let M := bestLow (contest measure shape) in
  (∀ pm, low_time measure shape pm ≤ M) ∧
  ((M = 0 ∧ low_winner measure shape = EmptyString) ∨
   ∃ i pm, priorityMutexes !! i = Some (pm, low_winner measure shape)
           ∧ low_time measure shape pm = M ∧ 0 < M
           ∧ ∀ j pm' name', (j < i)%nat →
               priorityMutexes !! j = Some (pm', name') →
               low_time measure shape pm' < M).
Proof.
  intros M.
  pose proof (contest_from_low (λ pm, measure (test_of pm shape))
                priorityMutexes no_best) as Hscan.
  change (contest_from _ priorityMutexes no_best) with (contest measure shape)
    in Hscan.
  pose proof (scan_spec (λ x : PriorityMutex * string,
                           (measure (test_of x.1 shape)).1) snd
                priorityMutexes (bestLow no_best, bestLowName no_best)) as Hspec.
  cbv zeta in Hspec. rewrite <- Hscan in Hspec. simpl in Hspec.
  destruct Hspec as (_ & Hall & Hcase). fold M in Hall, Hcase. split.
  - intros pm. destruct (strategy_listed pm) as (j & name & Hj).
    exact (Hall j _ Hj).
  - destruct Hcase as [Heq | (i & [pm name] & Hi & Hr & Hlt & Hbefore)].
    + left. injection Heq as HM Hname. split; [exact HM | exact Hname].
    + right. simpl in Hr. injection Hr as HM Hname.
      exists i, pm. unfold low_winner, low_time. rewrite Hname.
      split; [done|]. split; [done|]. split; [lia|].
      intros j pm' name' Hji Hj. exact (Hbefore j _ Hji Hj).
Qed.

(** The high axis: the best latency is the least of [DBL_MAX] and the four
    latencies; below [DBL_MAX] it belongs to the first strategy that
    reaches it. *)
Lemma high_axis measure shape :
  let m := bestHigh (contest measure shape) in
  (∀ pm, m ≤ high_latency measure shape pm) ∧
  ((m = DBL_MAX ∧ high_winner measure shape = EmptyString) ∨
   ∃ i pm, priorityMutexes !! i = Some (pm, high_winner measure shape)
           ∧ high_latency measure shape pm = m ∧ m < DBL_MAX
           ∧ ∀ j pm' name', (j < i)%nat →
               priorityMutexes !! j = Some (pm', name') →
               m < high_latency measure shape pm').
Proof.
  intros m.
  pose proof (contest_from_high (λ pm, measure (test_of pm shape))
                priorityMutexes no_best) as Hscan.
  change (contest_from _ priorityMutexes no_best) with (contest measure shape)
    in Hscan.
  pose proof (scan_spec (λ x : PriorityMutex * string,
                           - (measure (test_of x.1 shape)).2) snd
                priorityMutexes (- bestHigh no_best, bestHighName no_best)) as Hspec.
  cbv zeta in Hspec. rewrite <- Hscan in Hspec. simpl in Hspec.
  destruct Hspec as (_ & Hall & Hcase). fold m in Hall, Hcase. split.
  - intros pm. destruct (strategy_listed pm) as (j & name & Hj).
    specialize (Hall j _ Hj). simpl in Hall. unfold high_latency. lia.
  - destruct Hcase as [Heq | (i & [pm name] & Hi & Hr & Hlt & Hbefore)].
    + left. injection Heq as Hm Hname. split; [lia | done].
    + right. simpl in Hr. injection Hr as Hm Hname.
      exists i, pm. unfold high_winner, high_latency. rewrite Hname.
      split; [done|]. split; [lia|]. split; [lia|].
      intros j pm' name' Hji Hj. specialize (Hbefore j _ Hji Hj).
      simpl in Hbefore. lia.
Qed.

Lemma int64_below_DBL_MAX : 2 ^ 63 < DBL_MAX.
Proof. reflexivity. Qed.

Lemma count_bump n m name :
  count (bump n m) name = count m name + (if decide (n = name) then 1 else 0).
Proof.
  unfold count, bump. destruct (decide (n = name)) as [->|Hne].
  - by rewrite lookup_insert_eq.
  - rewrite lookup_insert_ne by done. lia.
Qed.

(** C10. Both comparisons of the winner selection are strict, against the
    initial bests [0.0] and the greatest [double]: a strategy is the
    low-axis winner of a combination exactly when its work time is above
    zero, at least that of every strategy and strictly above that of every
    strategy listed before it; it is the high-axis winner exactly when its
    latency is below the greatest [double], at most that of every strategy
    and strictly below that of every strategy listed before it, so on a tie
    the earliest listed strategy wins.  A combination adds one to the count
    of its winner on each axis and leaves every other count as it is; and
    when no strategy reports a work time above zero the low-axis winner is
    the empty name: the count under the empty name goes up by one and the
    count of every strategy stays. *)
Theorem winner_selection measure shape i pm name :
  priorityMutexes !! i = Some (pm, name) →
  (low_winner measure shape = name ↔
     0 < low_time measure shape pm ∧
     ∀ j pm' name', priorityMutexes !! j = Some (pm', name') →
       low_time measure shape pm' ≤ low_time measure shape pm ∧
       ((j < i)%nat → low_time measure shape pm' < low_time measure shape pm)) ∧
  (high_winner measure shape = name ↔
     high_latency measure shape pm < DBL_MAX ∧
     ∀ j pm' name', priorityMutexes !! j = Some (pm', name') →
       high_latency measure shape pm ≤ high_latency measure shape pm' ∧
       ((j < i)%nat → high_latency measure shape pm < high_latency measure shape pm')) ∧
  (∀ t n,
     count (winnerCountForLow (combination measure shape t)) n
     = count (winnerCountForLow t) n
       + (if decide (low_winner measure shape = n) then 1 else 0)
     ∧ count (winnerCountForHigh (combination measure shape t)) n
       = count (winnerCountForHigh t) n
         + (if decide (high_winner measure shape = n) then 1 else 0)) ∧
  ((∀ pm', low_time measure shape pm' ≤ 0) →
     low_winner measure shape = EmptyString ∧
     ∀ t, count (winnerCountForLow (combination measure shape t)) EmptyString
          = count (winnerCountForLow t) EmptyString + 1
          ∧ count (winnerCountForLow (combination measure shape t)) name
            = count (winnerCountForLow t) name).
Proof.
  intros Hi.
  destruct (low_axis measure shape) as [Hmax Hlow].
  destruct (high_axis measure shape) as [Hmin Hhigh].
  cbv zeta in Hmax, Hlow, Hmin, Hhigh.
  assert (Htally : ∀ t n,
     count (winnerCountForLow (combination measure shape t)) n
     = count (winnerCountForLow t) n
       + (if decide (low_winner measure shape = n) then 1 else 0)
     ∧ count (winnerCountForHigh (combination measure shape t)) n
       = count (winnerCountForHigh t) n
         + (if decide (high_winner measure shape = n) then 1 else 0)).
  { intros t n. unfold combination. cbn [winnerCountForLow winnerCountForHigh].
    rewrite !count_bump. split; reflexivity. }
  split; [|split; [|split]].
  - split.
    + intros Hw. rewrite Hw in Hlow.
      destruct Hlow as [[_ ->] | (i' & pm2 & Hi' & HM & Hpos & Hbefore)];
        [by apply names_not_empty in Hi|].
      destruct (names_distinct _ _ _ _ _ Hi' Hi) as [-> ->].
      split; [lia|]. intros j pm' name' Hj. split.
      * specialize (Hmax pm'). lia.
      * intros Hji. specialize (Hbefore j pm' name' Hji Hj). lia.
    + intros [Hpos Hall].
      destruct Hlow as [[HM _] | (i' & pm2 & Hi' & HM & _ & Hbefore)];
        [specialize (Hmax pm); lia|].
      destruct (Hall i' pm2 _ Hi') as [Hle Hlt].
      pose proof (Hmax pm) as Hpm.
      destruct (Nat.lt_trichotomy i' i) as [Hlt' | [-> | Hgt]].
      * specialize (Hlt Hlt'). lia.
      * rewrite Hi in Hi'. by injection Hi' as _ <-.
      * specialize (Hbefore i pm name Hgt Hi). lia.
  - split.
    + intros Hw. rewrite Hw in Hhigh.
      destruct Hhigh as [[_ ->] | (i' & pm2 & Hi' & Hm & Hbelow & Hbefore)];
        [by apply names_not_empty in Hi|].
      destruct (names_distinct _ _ _ _ _ Hi' Hi) as [-> ->].
      split; [lia|]. intros j pm' name' Hj. split.
      * specialize (Hmin pm'). lia.
      * intros Hji. specialize (Hbefore j pm' name' Hji Hj). lia.
    + intros [Hbelow Hall].
      destruct Hhigh as [[Hm _] | (i' & pm2 & Hi' & Hm & _ & Hbefore)];
        [specialize (Hmin pm); lia|].
      destruct (Hall i' pm2 _ Hi') as [Hle Hlt].
      pose proof (Hmin pm) as Hpm.
      destruct (Nat.lt_trichotomy i' i) as [Hlt' | [-> | Hgt]].
      * specialize (Hlt Hlt'). lia.
      * rewrite Hi in Hi'. by injection Hi' as _ <-.
      * specialize (Hbefore i pm name Hgt Hi). lia.
  - exact Htally.
  - intros Hnone.
    assert (Hw : low_winner measure shape = EmptyString).
    { destruct Hlow as [[_ Hw] | (i' & pm2 & _ & HM & Hpos & _)]; [done|].
      specialize (Hnone pm2). lia. }
    split; [exact Hw|]. intros t.
    rewrite !(proj1 (Htally t _)), Hw. split.
    + by rewrite decide_True.
    + rewrite decide_False; [lia|].
      intros <-. by apply names_not_empty in Hi.
Qed.

(** The two strategies with the greatest sample work time tie: the first
    listed one is the winner, and the combination adds one to its count.
    Where nothing is measured the win goes under the empty name. *)
Lemma winner_selection_witness :
  low_time measured_sample (10, 10, 10) BasicPriorityMutex
  = low_time measured_sample (10, 10, 10) TwoMutexPriorityMutex
  ∧ low_winner measured_sample (10, 10, 10) = "BasicPriorityMutex"%string
  ∧ count (winnerCountForLow
             (combination measured_sample (10, 10, 10) (Tally ∅ ∅ [])))
          "BasicPriorityMutex" = 1
  ∧ count (winnerCountForLow
             (combination measured_nothing (10, 10, 10) (Tally ∅ ∅ [])))
          EmptyString = 1
  ∧ count (winnerCountForLow
             (combination measured_nothing (10, 10, 10) (Tally ∅ ∅ [])))
          "BasicPriorityMutex" = 0.
Proof.
  pose proof (winner_selection measured_sample (10, 10, 10) 0 BasicPriorityMutex
                "BasicPriorityMutex" eq_refl) as (Hlow & _ & Htally & _).
  pose proof (winner_selection measured_nothing (10, 10, 10) 0 BasicPriorityMutex
                "BasicPriorityMutex" eq_refl) as (_ & _ & _ & Hnone).
  assert (Hwin : low_winner measured_sample (10, 10, 10)
                 = "BasicPriorityMutex"%string).
  { apply Hlow. split; [reflexivity|].
    intros j pm' name' Hj.
    destruct j as [|[|[|[|?]]]]; simpl in Hj; try discriminate Hj;
      injection Hj as <- <-; vm_compute; split;
      (discriminate || (intros; lia)). }
  split; [reflexivity|]. split; [exact Hwin|].
  split.
  - rewrite (proj1 (Htally (Tally ∅ ∅ []) _)), Hwin.
    rewrite decide_True by reflexivity. reflexivity.
  - destruct Hnone as [_ Hcount]; [intros pm'; vm_compute; discriminate|].
    destruct (Hcount (Tally ∅ ∅ [])) as [-> ->]. split; reflexivity.
Defined.

Lemma foldl_bind {A B C} (f : A → B → A) (g : C → list B) (l : list C) :
  ∀ a, foldl f a (l ≫= g) = foldl (λ a x, foldl f a (g x)) a l.
Proof.
  induction l as [|x l IH]; intros a; [reflexivity|].
  rewrite bind_cons, foldl_app. apply IH.
Qed.

Lemma foldl_pointwise {A B} (f g : A → B → A) (l : list B) :
  (∀ a x, f a x = g a x) → ∀ a, foldl f a l = foldl g a l.
Proof.
  intros Hfg. induction l as [|x l IH]; intros a; [reflexivity|].
  simpl. by rewrite Hfg, IH.
Qed.

(** The three nested loops visit the combinations in the order of
    [shapes]. *)
Lemma main_over_shapes measure :
  main measure = foldl (λ t shape, combination measure shape t)
                       (Tally ∅ ∅ []) shapes.
Proof.
  unfold main, shapes. rewrite foldl_bind.
  apply foldl_pointwise. intros t lo. rewrite foldl_bind.
  apply foldl_pointwise. intros t' hi. rewrite foldl_bind.
  by apply foldl_pointwise.
Qed.

Lemma tally_over measure (l : list (Z * Z * Z)) :
  ∀ t,
    let r := foldl (λ t shape, combination measure shape t) t l in
    (∀ name, count (winnerCountForLow r) name
             = count (winnerCountForLow t) name
               + Z.of_nat (length (filter (λ shape, low_winner measure shape = name) l))) ∧
    (∀ name, count (winnerCountForHigh r) name
             = count (winnerCountForHigh t) name
               + Z.of_nat (length (filter (λ shape, high_winner measure shape = name) l))) ∧
    runs_made r
    = runs_made t ++ (shape ← l; (λ '(pm, _), test_of pm shape) <$> priorityMutexes).
Proof.
  induction l as [|shape l IH]; intros t; simpl.
  - split; [intros; lia|]. split; [intros; lia|]. by rewrite app_nil_r.
  - destruct (IH (combination measure shape t)) as (IHl & IHh & IHr).
    split; [|split].
    + intros name. rewrite IHl. simpl. rewrite count_bump, filter_cons.
      fold (low_winner measure shape).
      destruct (decide (low_winner measure shape = name)); simpl; lia.
    + intros name. rewrite IHh. simpl. rewrite count_bump, filter_cons.
      fold (high_winner measure shape).
      destruct (decide (high_winner measure shape = name)); simpl; lia.
    + rewrite IHr. simpl. by rewrite <- (assoc_L (++)).
Qed.

Lemma runs_of_sweep measure :
  runs_made (main measure)
  = (shape ← shapes; (λ '(pm, _), test_of pm shape) <$> priorityMutexes).
Proof.
  rewrite main_over_shapes.
  by destruct (tally_over measure shapes (Tally ∅ ∅ [])) as (_ & _ & ->).
Qed.

(** C8, as stated, fails on a sweep in which no strategy measures any
    low-priority work: the low-axis win of a combination then goes to no
    strategy. *)
Lemma low_win_without_strategy :
  ¬ (∀ measure shape,
       well_formed measure →
       ∃ pm, (pm, low_winner measure shape) ∈ priorityMutexes
             ∧ ∀ pm', low_time measure shape pm' ≤ low_time measure shape pm).
Proof.
  intros H.
  destruct (H measured_nothing (1, 1, 1)) as (pm & Hin & _).
  - intros t. unfold from_int64. simpl. lia.
  - apply list_elem_of_lookup_1 in Hin as [i Hi].
    exact (names_not_empty i pm Hi).
Qed.

(** C8, amended. [main] sweeps the seven durations [10^0 .. 10^6]
    microseconds (one microsecond to one second) independently over the
    three axes and makes exactly one harness run per strategy for each of
    the [7 * 7 * 7] combinations.  For each combination one win goes to the
    strategy with the least high-priority latency, and one win goes to the
    strategy with the greatest low-priority work time provided some
    strategy measured a work time above zero.  The two maps [main] prints
    hold, for every name, the number of combinations it won on that axis. *)
Theorem sweep_contract measure :
  well_formed measure →
  microseconds = (λ k, 10 ^ k) <$> seqZ 0 7 ∧
  runs_made (main measure)
  = (shape ← shapes; (λ '(pm, _), test_of pm shape) <$> priorityMutexes) ∧
  NoDup (runs_made (main measure)) ∧
  length (runs_made (main measure)) = (4 * (7 * 7 * 7))%nat ∧
  (∀ shape,
     (∃ pm, (pm, high_winner measure shape) ∈ priorityMutexes
            ∧ ∀ pm', high_latency measure shape pm ≤ high_latency measure shape pm') ∧
     ((∃ pm, 0 < low_time measure shape pm) →
      ∃ pm, (pm, low_winner measure shape) ∈ priorityMutexes
            ∧ ∀ pm', low_time measure shape pm' ≤ low_time measure shape pm)) ∧
  (∀ name,
     count (winnerCountForLow (main measure)) name = wins (low_winner measure) name ∧
     count (winnerCountForHigh (main measure)) name = wins (high_winner measure) name).
Proof.
  intros Hwf.
  split; [reflexivity|]. split; [apply runs_of_sweep|].
  split; [|split; [|split]].
  - rewrite runs_of_sweep. apply (bool_decide_eq_true_1 _). vm_compute; reflexivity.
  - rewrite runs_of_sweep. vm_compute; reflexivity.
  - intros shape. split.
    + destruct (high_axis measure shape) as [Hmin Hhigh]. cbv zeta in Hmin, Hhigh.
      destruct Hhigh as [[Hm _] | (i & pm & Hi & Hm & _ & _)].
      * pose proof (Hmin BasicPriorityMutex) as Hb.
        destruct (Hwf (test_of BasicPriorityMutex shape)) as [_ [_ Hup]].
        pose proof int64_below_DBL_MAX. unfold high_latency in Hb.
        unfold from_int64 in *. lia.
      * exists pm. split; [by eapply list_elem_of_lookup_2|].
        intros pm'. specialize (Hmin pm'). lia.
    + intros [pm0 Hpos].
      destruct (low_axis measure shape) as [Hmax Hlow]. cbv zeta in Hmax, Hlow.
      destruct Hlow as [[HM _] | (i & pm & Hi & HM & _ & _)].
      * specialize (Hmax pm0). lia.
      * exists pm. split; [by eapply list_elem_of_lookup_2|].
        intros pm'. specialize (Hmax pm'). lia.
  - intros name. rewrite main_over_shapes.
    destruct (tally_over measure shapes (Tally ∅ ∅ [])) as (Hl & Hh & _).
    cbv zeta in Hl, Hh. rewrite Hl, Hh. unfold wins, count. simpl.
    rewrite !lookup_empty. simpl. lia.
Qed.

Lemma measured_sample_well_formed : well_formed measured_sample.
Proof.
  intros [pm lo hi sl]. unfold measured_sample, from_int64, clamp. simpl.
  destruct pm; simpl; lia.
Qed.

(** On the sample measurements the first listed strategy wins the low axis
    of every combination. *)
Lemma sweep_contract_witness :
  well_formed measured_sample
  ∧ wins (low_winner measured_sample) "BasicPriorityMutex" = 343
  ∧ wins (high_winner measured_sample) "MutexAndTwoBoolPriorityMutex" = 343.
Proof.
  split; [exact measured_sample_well_formed|].
  destruct (sweep_contract measured_sample measured_sample_well_formed)
    as (_ & _ & _ & _ & _ & Hcount).
  split.
  - destruct (Hcount "BasicPriorityMutex"%string) as [<- _]. vm_compute; reflexivity.
  - destruct (Hcount "MutexAndTwoBoolPriorityMutex"%string) as [_ <-].
    vm_compute; reflexivity.
Defined.

(** ** Construction of the harness *)

(** C6, as stated, fails: the constructor takes three zero durations. *)
Lemma zero_durations_accepted :
  ¬ (∀ pm lo hi sl,
       lo ≤ 0 ∨ hi ≤ 0 ∨ sl ≤ 0 →
       ∃ what, ContentionTest_new pm lo hi sl = Thrown what).
Proof.
  intros H. destruct (H BasicPriorityMutex 0 0 0) as [what Hw]; [lia|].
  discriminate Hw.
Qed.

(** C6, amended. The constructor checks nothing and never fails: whatever
    the three durations, zero and negative ones included, it returns a
    harness that holds them unchanged.  The sweep of [main] only ever
    builds harnesses with positive durations. *)
Theorem construction_never_rejects :
  (∀ pm lo hi sl,
     ContentionTest_new pm lo hi sl
     = Returned {| priorityMutex_ := pm; lowPrioWorkTime_ := lo;
                   highPrioWorkTime_ := hi; highPrioSleepTime_ := sl |}) ∧
  (∀ measure t,
     t ∈ runs_made (main measure) →
     0 < lowPrioWorkTime_ t ∧ 0 < highPrioWorkTime_ t ∧ 0 < highPrioSleepTime_ t).
Proof.
  split; [reflexivity|].
  intros measure t. rewrite runs_of_sweep. revert t.
  apply Forall_forall. apply (bool_decide_eq_true_1 _). vm_compute; reflexivity.
Qed.

(** * Further properties of the strategies, the harness and the sweep *)

(** ** The library calls *)

(** X1. Along every interleaving of every strategy the calls into the
    library are made within their contracts: a mutex is unlocked, and the
    predicate of a wait is tested, only by the worker that has the mutex
    locked; [lock()] is called only on a [unique_lock] that does not own
    and [unlock()] only on one that does; and every wait is handed a lock
    that owns the mutex, but for the wait of the high-priority lock call of
    the Preferenced strategy. *)
Theorem library_contracts_kept impl pm sched s w :
  run impl pm sched = Some s →
  in_contract pm w s ∧ lock_calls_legal pm w s ∧
  (pm ≠ MutexAndTwoBoolPriorityMutex ∨ w = Low → wait_lock_owned pm w s).
Proof.
  apply (invariant impl pm (λ s,
    in_contract pm w s ∧ lock_calls_legal pm w s ∧
    (pm ≠ MutexAndTwoBoolPriorityMutex ∨ w = Low → wait_lock_owned pm w s))).
  destruct impl, pm, w; model_check.
Qed.

(** The low-priority worker of the Flagged strategy is about to unlock. *)
Lemma library_contracts_kept_witness :
  ∃ s, run NativeHandle MutexAndAtomicBoolPriorityMutex (solo Low 6) = Some s
       ∧ current MutexAndAtomicBoolPriorityMutex Low s = Some (ul_unlock lowPriorityLock_)
       ∧ in_contract MutexAndAtomicBoolPriorityMutex Low s
       ∧ lock_calls_legal MutexAndAtomicBoolPriorityMutex Low s
       ∧ (MutexAndAtomicBoolPriorityMutex ≠ MutexAndTwoBoolPriorityMutex ∨ Low = Low →
          wait_lock_owned MutexAndAtomicBoolPriorityMutex Low s).
Proof.
  exists (state_after NativeHandle MutexAndAtomicBoolPriorityMutex (solo Low 6)).
  split; [vm_compute; reflexivity|]. split; [vm_compute; reflexivity|].
  apply (library_contracts_kept NativeHandle MutexAndAtomicBoolPriorityMutex
           (solo Low 6)).
  vm_compute; reflexivity.
Defined.

(** X2. No run of the Plain, Gated or Flagged strategy ever raises an
    exception, and none of the Preferenced strategy does where the library
    waits on the native handle of the mutex: the process is never ended by
    one. *)
Theorem runs_raise_nothing impl pm sched s :
  impl = NativeHandle ∨ pm ≠ MutexAndTwoBoolPriorityMutex →
  run impl pm sched = Some s → terminated s = false.
Proof.
  intros Hcase.
  apply (invariant impl pm (λ s, terminated s = false)).
  destruct Hcase as [-> | Hpm]; destruct pm; try done; try destruct impl;
    model_check.
Qed.

Lemma runs_raise_nothing_witness :
  ∃ s, run NativeHandle MutexAndTwoBoolPriorityMutex (solo Low 7 ++ solo High 5) = Some s
       ∧ cv (high s) = Blocked ∧ terminated s = false.
Proof.
  exists (state_after NativeHandle MutexAndTwoBoolPriorityMutex
            (solo Low 7 ++ solo High 5)).
  split; [vm_compute; reflexivity|]. split; [vm_compute; reflexivity|].
  apply (runs_raise_nothing NativeHandle MutexAndTwoBoolPriorityMutex
           (solo Low 7 ++ solo High 5));
    [left; reflexivity | vm_compute; reflexivity].
Defined.

(** X3. In the Flagged and the Preferenced strategy the [owns] bit of each
    [unique_lock] is set exactly while the worker that uses the lock has
    the mutex locked or is inside a wait it entered with the mutex
    locked. *)
Theorem owns_bits_track_the_mutex impl pm sched s l :
  pm = MutexAndAtomicBoolPriorityMutex ∨ pm = MutexAndTwoBoolPriorityMutex →
  run impl pm sched = Some s → owns_bit_right l s.
Proof.
  intros Hpm.
  apply (invariant impl pm (λ s, owns_bit_right l s)).
  destruct Hpm as [-> | ->]; destruct impl, l; model_check.
Qed.

(** The low-priority worker is blocked in its wait, its lock still owning,
    while the high-priority worker has the mutex. *)
Lemma owns_bits_track_the_mutex_witness :
  ∃ s, run NativeHandle MutexAndAtomicBoolPriorityMutex
         (solo High 3 ++ solo Low 4 ++ solo High 1) = Some s
       ∧ cv (low s) = Blocked
       ∧ dataMutex_owner (mem s) = Some High
       ∧ lowPriorityLock_owns (mem s) = true
       ∧ owns_bit_right lowPriorityLock_ s.
Proof.
  exists (state_after NativeHandle MutexAndAtomicBoolPriorityMutex
            (solo High 3 ++ solo Low 4 ++ solo High 1)).
  split; [vm_compute; reflexivity|]. split; [vm_compute; reflexivity|].
  split; [vm_compute; reflexivity|]. split; [vm_compute; reflexivity|].
  apply (owns_bits_track_the_mutex NativeHandle MutexAndAtomicBoolPriorityMutex
           (solo High 3 ++ solo Low 4 ++ solo High 1));
    [left; reflexivity | vm_compute; reflexivity].
Defined.

(** ** Where the mutexes are held *)

(** X4. Each worker has the data mutex locked on a fixed stretch of its
    loop, and nowhere else.  In the Plain, Gated and Flagged strategies the
    stretch covers the whole critical region; in the Preferenced strategy it
    lies inside the lock and the unlock call.  The gate of the Gated
    strategy is locked by a worker exactly from the second statement of its
    lock call to the return of the call. *)
Theorem mutexes_held_on_spans impl pm sched s w :
  run impl pm sched = Some s →
  (owner (data_lock pm) (mem s) = Some w ↔ locked_span pm w s) ∧
  (nextToAccessMutex_owner (mem s) = Some w ↔ gate_span pm w s) ∧
  (pm ≠ MutexAndTwoBoolPriorityMutex → holds w s →
   owner (data_lock pm) (mem s) = Some w).
Proof.
  apply (invariant impl pm (λ s,
    (owner (data_lock pm) (mem s) = Some w ↔ locked_span pm w s) ∧
    (nextToAccessMutex_owner (mem s) = Some w ↔ gate_span pm w s) ∧
    (pm ≠ MutexAndTwoBoolPriorityMutex → holds w s →
     owner (data_lock pm) (mem s) = Some w))).
  destruct impl, pm, w; model_check.
Qed.

(** The low-priority worker is in its critical region under the Gated
    strategy and the high-priority worker has taken the gate. *)
Lemma mutexes_held_on_spans_witness :
  ∃ s, run NativeHandle TwoMutexPriorityMutex (solo Low 6 ++ solo High 3) = Some s
       ∧ holds Low s
       ∧ dataMutex_owner (mem s) = Some Low
       ∧ nextToAccessMutex_owner (mem s) = Some High
       ∧ (nextToAccessMutex_owner (mem s) = Some High
          ↔ gate_span TwoMutexPriorityMutex High s).
Proof.
  exists (state_after NativeHandle TwoMutexPriorityMutex (solo Low 6 ++ solo High 3)).
  split; [vm_compute; reflexivity|]. split; [vm_compute; reflexivity|].
  split; [vm_compute; reflexivity|]. split; [vm_compute; reflexivity|].
  apply (mutexes_held_on_spans NativeHandle TwoMutexPriorityMutex
           (solo Low 6 ++ solo High 3) _ High).
  vm_compute; reflexivity.
Defined.

(** X5. In the Preferenced strategy [highPriorityWaiting_] is true exactly
    from the store in the high-priority lock call to the store in the
    high-priority unlock call, the whole high-priority critical region
    included. *)
Theorem pending_flag_span impl sched s :
  run impl MutexAndTwoBoolPriorityMutex sched = Some s →
  highPriorityWaiting (mem s) = true ↔ pending_span s.
Proof.
  apply (invariant impl MutexAndTwoBoolPriorityMutex (λ s,
    highPriorityWaiting (mem s) = true ↔ pending_span s)).
  destruct impl; model_check.
Qed.

(** The high-priority worker is in its critical region and the low-priority
    worker is blocked in its wait. *)
Lemma pending_flag_span_witness :
  ∃ s, run NativeHandle MutexAndTwoBoolPriorityMutex (solo High 8 ++ solo Low 4) = Some s
       ∧ holds High s ∧ cv (low s) = Blocked
       ∧ highPriorityWaiting (mem s) = true
       ∧ (highPriorityWaiting (mem s) = true ↔ pending_span s).
Proof.
  exists (state_after NativeHandle MutexAndTwoBoolPriorityMutex
            (solo High 8 ++ solo Low 4)).
  split; [vm_compute; reflexivity|]. split; [vm_compute; reflexivity|].
  split; [vm_compute; reflexivity|]. split; [vm_compute; reflexivity|].
  apply (pending_flag_span NativeHandle (solo High 8 ++ solo Low 4)).
  vm_compute; reflexivity.
Defined.

(** ** Priority *)






(** ** Progress *)

Lemma completes_finishes impl pm s :
  completes impl pm s = true → ∃ plan, finishes impl pm s plan.
Proof.
  unfold completes, finishes.
  destruct (search impl pm 4096 [] [(s, [])]) as [plan|]; [|discriminate].
  intros [Hfair Hexec]%andb_true_iff. exists plan. split; [exact Hfair|].
  destruct (exec impl pm plan s) as [s'|]; [|discriminate].
  exists s'. split; [reflexivity|]. by apply bool_decide_eq_true_1 in Hexec.
Qed.

(** X7. No strategy can deadlock the harness: from every state a run can
    reach there is a way on to the join of both threads that needs no
    spurious wake-up (for the Preferenced strategy, where the library waits
    on the native handle of the mutex). *)
Theorem can_always_finish impl pm sched s :
  impl = NativeHandle ∨ pm ≠ MutexAndTwoBoolPriorityMutex →
  run impl pm sched = Some s →
  ∃ plan, finishes impl pm s plan.
Proof.
  intros Hcase Hrun. apply completes_finishes. revert Hrun.
  apply (invariant impl pm (λ s, completes impl pm s = true)).
  destruct Hcase as [-> | Hpm]; destruct pm; try done; try destruct impl;
    model_check.
Qed.

(** Both workers are inside the Preferenced strategy, one blocked in its
    wait. *)
Lemma can_always_finish_witness :
  ∃ s, run NativeHandle MutexAndTwoBoolPriorityMutex (solo Low 7 ++ solo High 5) = Some s
       ∧ cv (high s) = Blocked
       ∧ ∃ plan, finishes NativeHandle MutexAndTwoBoolPriorityMutex s plan.
Proof.
  exists (state_after NativeHandle MutexAndTwoBoolPriorityMutex
            (solo Low 7 ++ solo High 5)).
  split; [vm_compute; reflexivity|]. split; [vm_compute; reflexivity|].
  apply (can_always_finish NativeHandle MutexAndTwoBoolPriorityMutex
           (solo Low 7 ++ solo High 5));
    [left; reflexivity | vm_compute; reflexivity].
Defined.

(** X8. No wake-up is lost: whenever a worker is blocked in a wait the other
    worker is inside an iteration of its loop, whose unlock call ends with
    [notify_all], and is not blocked itself. *)
Theorem blocked_waiter_has_notifier impl pm sched s :
  run impl pm sched = Some s →
  (cv (low s) = Blocked → will_notify High s ∧ cv (high s) ≠ Blocked) ∧
  (cv (high s) = Blocked → will_notify Low s ∧ cv (low s) ≠ Blocked).
Proof.
  apply (invariant impl pm (λ s,
    (cv (low s) = Blocked → will_notify High s ∧ cv (high s) ≠ Blocked) ∧
    (cv (high s) = Blocked → will_notify Low s ∧ cv (low s) ≠ Blocked))).
  destruct impl, pm; model_check.
Qed.

Lemma blocked_waiter_has_notifier_witness :
  ∃ s, run NativeHandle MutexAndAtomicBoolPriorityMutex
         (solo High 3 ++ solo Low 4) = Some s
       ∧ cv (low s) = Blocked
       ∧ (cv (low s) = Blocked → will_notify High s ∧ cv (high s) ≠ Blocked).
Proof.
  exists (state_after NativeHandle MutexAndAtomicBoolPriorityMutex
            (solo High 3 ++ solo Low 4)).
  split; [vm_compute; reflexivity|]. split; [vm_compute; reflexivity|].
  apply (blocked_waiter_has_notifier NativeHandle MutexAndAtomicBoolPriorityMutex
           (solo High 3 ++ solo Low 4)).
  vm_compute; reflexivity.
Defined.

(** ** The end of a run *)

Lemma acquisitions_app w t1 t2 :
  acquisitions w (t1 ++ t2) = (acquisitions w t1 + acquisitions w t2)%nat.
Proof. unfold acquisitions. by rewrite filter_app, length_app. Qed.

Lemma steps_drain impl pm w :
  always_step impl pm (λ s e s', bool_decide
    (drains w s s'
     ∧ (ph (thread_of w s) = Finished → shouldRun_ s = false))) = true.
Proof. destruct impl, pm, w; model_check. Qed.

Lemma drain_bound impl pm w sched :
  ∀ s tr s', s ∈ reached impl pm → shouldRun_ s = false →
    holder_trace impl pm sched s = Some (tr, s') →
    shouldRun_ s' = false ∧ (acquisitions w tr + budget w s' ≤ budget w s)%nat.
Proof.
  induction sched as [|e rest IH]; intros s tr s' Hs Hstop Htr; simpl in Htr.
  - injection Htr as <- <-. split; [done|]. simpl. lia.
  - destruct (step impl pm e s) as [s1|] eqn:Hstep; [|discriminate].
    destruct (holder_trace impl pm rest s1) as [[tr1 s1']|] eqn:Hrest;
      [|discriminate].
    injection Htr as <- <-.
    pose proof (always_step_reached _ _ _ _ _ _ (steps_drain impl pm w) Hs Hstep)
      as Hone.
    apply bool_decide_eq_true_1 in Hone. destruct Hone as [Hdrain _].
    destruct (Hdrain Hstop) as [Hstop1 Hspent].
    assert (Hs1 : s1 ∈ reached impl pm)
      by (eapply closed_step; [apply reached_closed | exact Hs | exact Hstep]).
    destruct (IH s1 tr1 s1' Hs1 Hstop1 Hrest) as [Hstop' Hrest'].
    split; [done|]. rewrite acquisitions_app. lia.
Qed.

(** X9. A worker leaves its loop only after the controller has cleared
    [shouldRun_]; once it is cleared it stays cleared, and each worker gets
    at most one more lock call returned, that of the iteration whose loop
    test it had passed already. *)
Theorem stop_drains_the_run impl pm before s after tr s' w :
  run impl pm before = Some s →
  holder_trace impl pm after s = Some (tr, s') →
  (ph (thread_of w s) = Finished → shouldRun_ s = false) ∧
  (shouldRun_ s = false →
   shouldRun_ s' = false ∧ (acquisitions w tr ≤ budget w s)%nat
   ∧ (budget w s ≤ 1)%nat).
Proof.
  intros Hrun Htr. split.
  - revert Hrun.
    apply (invariant impl pm (λ s, ph (thread_of w s) = Finished →
                                   shouldRun_ s = false)).
    destruct impl, pm, w; model_check.
  - intros Hstop.
    destruct (drain_bound impl pm w after s tr s'
                (run_reached _ _ _ _ Hrun) Hstop Htr) as [Hstop' Hle].
    split; [done|]. split; [lia|].
    unfold budget. destruct (ph (thread_of w s)); lia.
Qed.

(** The controller stops a run of the Plain strategy when the low-priority
    worker has passed its loop test: the worker is served once more and
    leaves. *)
Lemma stop_drains_the_run_witness :
  ∃ s s',
    run NativeHandle BasicPriorityMutex (solo Low 1 ++ [Stop]) = Some s
    ∧ holder_trace NativeHandle BasicPriorityMutex (solo Low 7 ++ solo High 1) s
      = Some ([Acquired Low; Released Low], s')
    ∧ joined s'
    ∧ (shouldRun_ s = false →
       shouldRun_ s' = false
       ∧ (acquisitions Low [Acquired Low; Released Low] ≤ budget Low s)%nat
       ∧ (budget Low s ≤ 1)%nat).
Proof.
  exists (state_after NativeHandle BasicPriorityMutex (solo Low 1 ++ [Stop])),
         (state_after NativeHandle BasicPriorityMutex
            (solo Low 1 ++ [Stop] ++ solo Low 7 ++ solo High 1)).
  split; [vm_compute; reflexivity|]. split; [vm_compute; reflexivity|].
  split; [vm_compute; split; reflexivity|].
  apply (stop_drains_the_run NativeHandle BasicPriorityMutex
           (solo Low 1 ++ [Stop]) _ (solo Low 7 ++ solo High 1));
    vm_compute; reflexivity.
Defined.

(** ** The tallies *)

Lemma low_tally_fold measure (l : list (Z * Z * Z)) :
  ∀ t, winnerCountForLow (foldl (λ t shape, combination measure shape t) t l)
       = foldl (λ m shape, bump (low_winner measure shape) m)
               (winnerCountForLow t) l.
Proof. induction l as [|shape l IH]; intros t; [reflexivity | apply IH]. Qed.

Lemma high_tally_fold measure (l : list (Z * Z * Z)) :
  ∀ t, winnerCountForHigh (foldl (λ t shape, combination measure shape t) t l)
       = foldl (λ m shape, bump (high_winner measure shape) m)
               (winnerCountForHigh t) l.
Proof. induction l as [|shape l IH]; intros t; [reflexivity | apply IH]. Qed.

Lemma bump_positive name m : entries_positive m → entries_positive (bump name m).
Proof.
  intros Hm name' c. unfold bump.
  destruct (decide (name = name')) as [->|Hne].
  - rewrite lookup_insert_eq. intros [= <-].
    destruct (m !! name') as [c'|] eqn:Hc'; simpl; [|lia].
    specialize (Hm _ _ Hc'). lia.
  - rewrite lookup_insert_ne by done. apply Hm.
Qed.

Lemma bumps_positive {A} (winner : A → string) (l : list A) :
  ∀ m, entries_positive m →
       entries_positive (foldl (λ m x, bump (winner x) m) m l).
Proof.
  induction l as [|x l IH]; intros m Hm; [exact Hm|].
  simpl. apply IH. by apply bump_positive.
Qed.

Lemma entry_iff_counted m name :
  entries_positive m → (is_Some (m !! name) ↔ 0 < count m name).
Proof.
  intros Hm. unfold count. destruct (m !! name) as [c|] eqn:Hc; simpl.
  - specialize (Hm _ _ Hc). split; [lia | by eauto].
  - split; [by intros [? ?] | lia].
Qed.

Lemma low_winner_named measure shape : low_winner measure shape ∈ tally_names.
Proof.
  destruct (low_axis measure shape) as [_ [[_ ->] | (i & pm & Hi & _)]].
  - unfold tally_names. set_solver.
  - unfold tally_names. apply elem_of_cons. right.
    apply list_elem_of_fmap. exists (pm, low_winner measure shape).
    split; [reflexivity | by eapply list_elem_of_lookup_2].
Qed.

Lemma high_winner_named measure shape : high_winner measure shape ∈ tally_names.
Proof.
  destruct (high_axis measure shape) as [_ [[_ ->] | (i & pm & Hi & _)]].
  - unfold tally_names. set_solver.
  - unfold tally_names. apply elem_of_cons. right.
    apply list_elem_of_fmap. exists (pm, high_winner measure shape).
    split; [reflexivity | by eapply list_elem_of_lookup_2].
Qed.

Lemma wins_partition (winner : Z * Z * Z → string) (l : list (Z * Z * Z)) :
  (∀ shape, winner shape ∈ tally_names) →
  foldr (λ name acc,
           Z.of_nat (length (filter (λ shape, winner shape = name) l)) + acc)
        0 tally_names
  = Z.of_nat (length l).
Proof.
  intros Hnamed. induction l as [|shape l IH]; [reflexivity|].
  simpl in *. rewrite !filter_cons.
  pose proof (Hnamed shape) as Hin. unfold tally_names in Hin. simpl in Hin.
  rewrite !elem_of_cons in Hin.
  destruct Hin as [-> | [-> | [-> | [-> | [-> | Hin]]]]];
    [| | | | | by apply elem_of_nil in Hin];
    repeat case_decide; try done; simpl length; lia.
Qed.

Lemma bumps_named {A} (winner : A → string) (ns : list string) (l : list A) :
  (∀ x, winner x ∈ ns) →
  ∀ m, (∀ name, is_Some (m !! name) → name ∈ ns) →
       ∀ name, is_Some (foldl (λ m x, bump (winner x) m) m l !! name) → name ∈ ns.
Proof.
  intros Hw. induction l as [|x l IH]; intros m Hm; [exact Hm|].
  simpl. apply IH. intros name. unfold bump.
  destruct (decide (winner x = name)) as [<-|Hne]; [by intros _|].
  rewrite lookup_insert_ne by done. apply Hm.
Qed.

Lemma counts_are_wins measure name :
  count (winnerCountForLow (main measure)) name = wins (low_winner measure) name ∧
  count (winnerCountForHigh (main measure)) name = wins (high_winner measure) name.
Proof.
  rewrite main_over_shapes.
  destruct (tally_over measure shapes (Tally ∅ ∅ [])) as (Hl & Hh & _).
  cbv zeta in Hl, Hh. rewrite Hl, Hh. unfold wins, count. simpl.
  rewrite !lookup_empty. simpl. lia.
Qed.

Lemma total_of_counts m (winner : Z * Z * Z → string) :
  (∀ name, count m name = wins winner name) →
  (∀ shape, winner shape ∈ tally_names) →
  total m = Z.of_nat (length shapes).
Proof.
  intros Hc Hn. rewrite <- (wins_partition winner shapes Hn).
  unfold total, tally_names. cbn [foldr fmap list_fmap priorityMutexes snd].
  rewrite !Hc. reflexivity.
Qed.

Lemma high_winner_is_strategy measure shape :
  well_formed measure → high_winner measure shape ∈ priorityMutexes.*2.
Proof.
  intros Hwf.
  destruct (high_axis measure shape) as [Hmin Hhigh]. cbv zeta in Hmin, Hhigh.
  destruct Hhigh as [[Hm _] | (i & pm & Hi & _)].
  - pose proof (Hmin BasicPriorityMutex) as Hb.
    destruct (Hwf (test_of BasicPriorityMutex shape)) as [_ [_ Hup]].
    pose proof int64_below_DBL_MAX. unfold high_latency in Hb.
    unfold from_int64 in *. lia.
  - apply list_elem_of_fmap. exists (pm, high_winner measure shape).
    split; [reflexivity | by eapply list_elem_of_lookup_2].
Qed.

(** X10. Whatever the harness measures, the two maps [main] prints account
    for every parameter combination: on each axis the counts add up to the
    [7 * 7 * 7] combinations; a name has an entry exactly when it won at
    least one combination, so no entry is zero; no entry is under any name
    but those of the four strategies and the empty name; and the
    high-priority map never has the empty name, the latencies being
    converted from [int64_t]. *)
Theorem tallies_account_for_every_combination measure :
  total (winnerCountForLow (main measure)) = 343 ∧
  total (winnerCountForHigh (main measure)) = 343 ∧
  (∀ name, (is_Some (winnerCountForLow (main measure) !! name)
            ↔ 0 < wins (low_winner measure) name) ∧
           (is_Some (winnerCountForHigh (main measure) !! name)
            ↔ 0 < wins (high_winner measure) name)) ∧
  (∀ name, name ∉ tally_names →
           winnerCountForLow (main measure) !! name = None ∧
           winnerCountForHigh (main measure) !! name = None) ∧
  (well_formed measure →
   winnerCountForHigh (main measure) !! EmptyString = None).
Proof.
  assert (Hlow : winnerCountForLow (main measure)
                 = foldl (λ m shape, bump (low_winner measure shape) m) ∅ shapes)
    by (rewrite main_over_shapes; apply low_tally_fold).
  assert (Hhigh : winnerCountForHigh (main measure)
                  = foldl (λ m shape, bump (high_winner measure shape) m) ∅ shapes)
    by (rewrite main_over_shapes; apply high_tally_fold).
  assert (Hempty : entries_positive (∅ : gmap string Z))
    by (intros name c; by rewrite lookup_empty).
  assert (Hnone : ∀ (ns : list string) name,
                    is_Some ((∅ : gmap string Z) !! name) → name ∈ ns)
    by (intros ns name; rewrite lookup_empty; by intros [? ?]).
  split; [|split; [|split; [|split]]].
  - transitivity (Z.of_nat (length shapes)); [|vm_compute; reflexivity].
    apply (total_of_counts _ (low_winner measure));
      [intros name; exact (proj1 (counts_are_wins measure name))
      | apply low_winner_named].
  - transitivity (Z.of_nat (length shapes)); [|vm_compute; reflexivity].
    apply (total_of_counts _ (high_winner measure));
      [intros name; exact (proj2 (counts_are_wins measure name))
      | apply high_winner_named].
  - intros name. split.
    + rewrite <- (proj1 (counts_are_wins measure name)).
      apply entry_iff_counted. rewrite Hlow. by apply bumps_positive.
    + rewrite <- (proj2 (counts_are_wins measure name)).
      apply entry_iff_counted. rewrite Hhigh. by apply bumps_positive.
  - intros name Hname. rewrite Hlow, Hhigh. split.
    + apply eq_None_not_Some. intros Hsome. apply Hname.
      exact (bumps_named (low_winner measure) tally_names shapes
               (low_winner_named measure) ∅ (Hnone _) name Hsome).
    + apply eq_None_not_Some. intros Hsome. apply Hname.
      exact (bumps_named (high_winner measure) tally_names shapes
               (high_winner_named measure) ∅ (Hnone _) name Hsome).
  - intros Hwf. rewrite Hhigh. apply eq_None_not_Some. intros Hsome.
    pose proof (bumps_named (high_winner measure) (priorityMutexes.*2) shapes
                  (λ shape, high_winner_is_strategy measure shape Hwf) ∅
                  (Hnone _) EmptyString Hsome) as Hin.
    clear Hsome. rename Hin into Hsome.
    apply list_elem_of_fmap in Hsome as [[pm name] [Hname Hin]].
    simpl in Hname. subst name.
    apply list_elem_of_lookup_1 in Hin as [i Hi].
    exact (names_not_empty i pm Hi).
Qed.

Lemma scan_ext {A} (val1 val2 : A → Z) (label : A → string) (l : list A) b :
  (∀ a, val1 a = val2 a) → scan val1 label l b = scan val2 label l b.
Proof.
  intros Hval. unfold scan. apply foldl_pointwise.
  intros acc a. by rewrite Hval.
Qed.

Lemma low_winner_ext (m1 m2 : measurement) shape :
  (∀ t, (m1 t).1 = (m2 t).1) → low_winner m1 shape = low_winner m2 shape.
Proof.
  intros Hsame.
  pose proof (contest_from_low (λ pm, m1 (test_of pm shape)) priorityMutexes no_best)
    as H1.
  pose proof (contest_from_low (λ pm, m2 (test_of pm shape)) priorityMutexes no_best)
    as H2.
  rewrite (scan_ext _ (λ x, (m2 (test_of x.1 shape)).1)) in H1
    by (intros a; apply Hsame).
  rewrite <- H2 in H1. by injection H1.
Qed.

Lemma high_winner_ext (m1 m2 : measurement) shape :
  (∀ t, (m1 t).2 = (m2 t).2) → high_winner m1 shape = high_winner m2 shape.
Proof.
  intros Hsame.
  pose proof (contest_from_high (λ pm, m1 (test_of pm shape)) priorityMutexes no_best)
    as H1.
  pose proof (contest_from_high (λ pm, m2 (test_of pm shape)) priorityMutexes no_best)
    as H2.
  rewrite (scan_ext _ (λ x, - (m2 (test_of x.1 shape)).2)) in H1
    by (intros a; by rewrite Hsame).
  rewrite <- H2 in H1. by injection H1.
Qed.

(** X11. The two axes are tallied apart: the low-priority map [main] prints
    depends on the measured work times only, the high-priority map on the
    measured latencies only. *)
Theorem axes_tallied_apart (m1 m2 : measurement) :
  ((∀ t, (m1 t).1 = (m2 t).1) →
   winnerCountForLow (main m1) = winnerCountForLow (main m2)) ∧
  ((∀ t, (m1 t).2 = (m2 t).2) →
   winnerCountForHigh (main m1) = winnerCountForHigh (main m2)).
Proof.
  split; intros Hsame; rewrite !main_over_shapes.
  - rewrite !low_tally_fold. apply foldl_pointwise.
    intros m shape. by rewrite (low_winner_ext m1 m2 shape Hsame).
  - rewrite !high_tally_fold. apply foldl_pointwise.
    intros m shape. by rewrite (high_winner_ext m1 m2 shape Hsame).
Qed.

(** Two measurements with the same work times and other latencies: the
    same low-priority map, another high-priority map. *)
Lemma axes_tallied_apart_witness :
  winnerCountForLow (main measured_sample) = winnerCountForLow (main measured_other)
  ∧ winnerCountForHigh (main measured_sample)
    ≠ winnerCountForHigh (main measured_other).
Proof.
  split.
  - apply (proj1 (axes_tallied_apart measured_sample measured_other)).
    intros t. reflexivity.
  - intros Heq.
    assert (H : count (winnerCountForHigh (main measured_sample))
                  "MutexAndTwoBoolPriorityMutex"
                = count (winnerCountForHigh (main measured_other))
                    "MutexAndTwoBoolPriorityMutex") by (by rewrite Heq).
    vm_compute in H. discriminate H.
Defined.

(** ** The accumulators of the thread functions *)

Lemma wrap64_small z : - 2 ^ 63 ≤ z < 2 ^ 63 → wrap64 z = z.
Proof. intros Hz. unfold wrap64. rewrite Z.mod_small; lia. Qed.

Lemma steady_measured t readings :
  steady_from t readings →
  t ≤ end_of t readings ∧
  0 ≤ measured_time readings ≤ end_of t readings - t.
Proof.
  revert t. induction readings as [|[t0 t1] rest IH]; intros t; simpl.
  - lia.
  - intros (Ht0 & Ht1 & Hrest). destruct (IH t1 Hrest) as [Hend Hsum]. lia.
Qed.

Lemma accumulate_from acc t readings :
  steady_from t readings → 0 ≤ acc →
  acc + (end_of t readings - t) < 2 ^ 63 →
  foldl (λ acc '(startTime, endTime), wrap64 (acc + wrap64 (endTime - startTime)))
        acc readings
  = acc + measured_time readings.
Proof.
  revert acc t. induction readings as [|[t0 t1] rest IH]; intros acc t; simpl.
  - lia.
  - intros (Ht0 & Ht1 & Hrest) Hacc Hfit.
    destruct (steady_measured t1 rest Hrest) as [Hend Hsum].
    rewrite (wrap64_small (t1 - t0)) by lia.
    rewrite (wrap64_small (acc + (t1 - t0))) by lia.
    rewrite (IH (acc + (t1 - t0)) t1) by (done || lia). lia.
Qed.

Lemma measured_at_least d readings :
  Forall (λ r, d ≤ r.2 - r.1) readings →
  d * Z.of_nat (length readings) ≤ measured_time readings.
Proof.
  induction 1 as [|[t0 t1] rest Hd _ IH]; simpl in *; lia.
Qed.

(** X12. With a clock that never steps back and readings that fit an
    [int64_t], the accumulator of either thread function never wraps: it is
    exactly the time between the two readings of each iteration, summed;
    it is not negative and not more than the time from the first reading to
    the last; and when every iteration lasts at least [d], as a
    [sleep_for] of [d] makes the work of the low-priority worker last, it
    is at least [d] times the number of iterations. *)
Theorem accumulator_exact_and_bounded first d readings :
  steady_from first readings →
  0 ≤ first → end_of first readings < 2 ^ 63 →
  Forall (λ r, d ≤ r.2 - r.1) readings →
  accumulate readings = measured_time readings ∧
  0 ≤ accumulate readings ≤ end_of first readings - first ∧
  d * Z.of_nat (length readings) ≤ accumulate readings.
Proof.
  intros Hsteady Hfirst Hlast Hd.
  destruct (steady_measured first readings Hsteady) as [Hend Hsum].
  assert (Hacc : accumulate readings = measured_time readings).
  { unfold accumulate.
    rewrite (accumulate_from 0 first readings Hsteady) by lia. lia. }
  rewrite Hacc. split; [reflexivity|]. split; [exact Hsum|].
  by apply measured_at_least.
Qed.

(** Two iterations of one millisecond of work each, 0.2 ms apart. *)
Lemma accumulator_exact_and_bounded_witness :
  lowPriorityThreadWorkTime_ [(5000, 1005300); (1205300, 2205900)] = 2000900
  ∧ 1000000 * 2 ≤ accumulate [(5000, 1005300); (1205300, 2205900)]
  ∧ accumulate [(5000, 1005300); (1205300, 2205900)] ≤ 2205900 - 5000.
Proof.
  split; [reflexivity|].
  destruct (accumulator_exact_and_bounded 5000 1000000
              [(5000, 1005300); (1205300, 2205900)]) as (_ & [_ Hup] & Hlow).
  - simpl. lia.
  - lia.
  - simpl. lia.
  - repeat constructor; simpl; lia.
  - split; [exact Hlow | exact Hup].
Defined.

Lemma wrap64_range z : - 2 ^ 63 ≤ wrap64 z < 2 ^ 63.
Proof.
  unfold wrap64.
  pose proof (Z.mod_pos_bound (z + 2 ^ 63) (2 ^ 64) eq_refl). lia.
Qed.

Lemma accumulate_range readings : - 2 ^ 63 ≤ accumulate readings < 2 ^ 63.
Proof.
  unfold accumulate.
  assert (H : ∀ acc, - 2 ^ 63 ≤ acc < 2 ^ 63 →
            - 2 ^ 63 ≤ foldl (λ acc '(startTime, endTime),
                                wrap64 (acc + wrap64 (endTime - startTime)))
                             acc readings < 2 ^ 63).
  { induction readings as [|[t0 t1] rest IH]; intros acc Hacc; [exact Hacc|].
    simpl. apply IH, wrap64_range. }
  apply H. lia.
Qed.

Ltac eval_powers :=
  repeat match goal with
         | |- context [2 ^ ?x] =>
             let v := eval vm_compute in (2 ^ x) in
             progress change (2 ^ x) with v in *
         | H : context [2 ^ ?x] |- _ =>
             let v := eval vm_compute in (2 ^ x) in
             progress change (2 ^ x) with v in *
         end.

Lemma to_double_nearest z :
  - 2 ^ 63 ≤ z < 2 ^ 63 → nearest_double z (to_double z).
Proof.
  intros Hz. unfold nearest_double, from_int64, to_double. cbv zeta.
  destruct (Z.ltb_spec (Z.abs z) (2 ^ 53)) as [Hsmall | Hbig];
    [split; [lia|]; split; [done | lia]|].
  set (a := Z.abs z) in *.
  assert (Ha : 2 ^ 53 ≤ a ≤ 2 ^ 63) by lia.
  pose proof (Z.log2_spec a ltac:(lia)) as Hlog.
  assert (HL : 53 ≤ Z.log2 a ≤ 63).
  { split.
    - change 53 with (Z.log2 (2 ^ 53)). apply Z.log2_le_mono. lia.
    - change 63 with (Z.log2 (2 ^ 63)). apply Z.log2_le_mono. lia. }
  set (L := Z.log2 a) in *.
  assert (HLcases : L = 53 ∨ L = 54 ∨ L = 55 ∨ L = 56 ∨ L = 57 ∨ L = 58
                    ∨ L = 59 ∨ L = 60 ∨ L = 61 ∨ L = 62 ∨ L = 63) by lia.
  set (q' := if _ : bool then _ else _).
  assert (Hcases : ∀ e h, 2 ^ (L - 52) = e → 2 ^ (L - 52 - 1) = h →
            q' = (if (h <? a `mod` e) || ((a `mod` e =? h) && Z.odd (a / e))
                  then a / e + 1 else a / e)) by (by intros ?? <- <-).
  split; [|split; [lia|]; intros _; split; [by exists (Z.sgn z * q'); lia|]];
    destruct HLcases
      as [-> | [-> | [-> | [-> | [-> | [-> | [-> | [-> | [-> | [-> | ->]]]]]]]]]];
    specialize (Hcases _ _ eq_refl eq_refl);
    clearbody q'; eval_powers;
    (destruct (_ || _) eqn:Hc in Hcases;
     [apply orb_true_iff in Hc as [Hc | [Hc Hodd]%andb_true_iff];
      [apply Z.ltb_lt in Hc | apply Z.eqb_eq in Hc]
     | apply orb_false_iff in Hc as [Hc Hc']; apply Z.ltb_ge in Hc;
       apply andb_false_iff in Hc' as [Hc' | Hc'];
       [apply Z.eqb_neq in Hc' | ]]);
    subst q'; subst a; Z.div_mod_to_equations; nia.
Qed.

(** X13. The [double] member a thread function assigns from its accumulator
    when its loop is left is a [double] nearest to the count of the
    accumulator: the count itself below [2 ^ 53] nanoseconds, and above
    that a multiple of the spacing of the [double]s there, at most half a
    spacing away; it always lies from [- 2 ^ 63] to [2 ^ 63].  With a
    clock that never steps back and a last reading below [2 ^ 53]
    nanoseconds, some 104 days, the member is exactly the time between the
    two readings of each iteration, summed. *)
Theorem members_convert_the_accumulators first readings :
  nearest_double (accumulate readings) (lowPriorityThreadWorkTime_ readings) ∧
  nearest_double (accumulate readings) (highPriorityThreadLatencyTime_ readings) ∧
  (steady_from first readings → 0 ≤ first → end_of first readings < 2 ^ 53 →
   lowPriorityThreadWorkTime_ readings = measured_time readings ∧
   highPriorityThreadLatencyTime_ readings = measured_time readings).
Proof.
  pose proof (to_double_nearest _ (accumulate_range readings)) as Hnear.
  split; [exact Hnear|]. split; [exact Hnear|].
  intros Hsteady Hfirst Hlast.
  destruct (steady_measured first readings Hsteady) as [Hend Hsum].
  assert (Hacc : accumulate readings = measured_time readings).
  { unfold accumulate.
    rewrite (accumulate_from 0 first readings Hsteady) by lia. lia. }
  destruct Hnear as (_ & Hexact & _).
  unfold lowPriorityThreadWorkTime_, highPriorityThreadLatencyTime_ in *.
  rewrite Hexact by lia. done.
Qed.

(** Two iterations of one millisecond of work each: the member is the
    exact sum.  One iteration of [2 ^ 53 + 3] nanoseconds: the member is
    the next [double], one nanosecond more. *)
Lemma members_convert_the_accumulators_witness :
  lowPriorityThreadWorkTime_ [(5000, 1005300); (1205300, 2205900)] = 2000900
  ∧ accumulate [(0, 2 ^ 53 + 3)] = 2 ^ 53 + 3
  ∧ highPriorityThreadLatencyTime_ [(0, 2 ^ 53 + 3)] = 2 ^ 53 + 4
  ∧ nearest_double (2 ^ 53 + 3) (2 ^ 53 + 4).
Proof.
  split.
  - destruct (members_convert_the_accumulators 5000
                [(5000, 1005300); (1205300, 2205900)]) as (_ & _ & Hexact).
    destruct Hexact as [-> _]; [simpl; lia | lia | simpl; lia | reflexivity].
  - split; [reflexivity|]. split; [reflexivity|].
    exact (proj1 (proj2 (members_convert_the_accumulators 0 [(0, 2 ^ 53 + 3)]))).
Defined.
